(** * splay: a scenario-driven HTTP load generator (main.go)

    A shallow embedding of the concurrency core of [main.go]: the target
    count computed by [ScenarioRun], the body of [scenarioWorker], and the
    goroutines of one scenario (rate limiter, dispatcher, worker pool and
    aggregator) as a labelled transition system over their channels.

    Go's [int] is taken to be 64 bits wide and is carried by [Z] with the
    wrap-around of [++] written out; [float64] is carried by the binary64
    instance of the Standard Library's [spec_float]. *)

From Stdlib Require Import ZArith Lia Bool String List.
From Stdlib Require Import SpecFloat.
From stdpp Require Import base list gmap strings.

Open Scope Z_scope.

(** ** Machine integers and float64 *)

Definition min_int : Z := - 2 ^ 63.
Definition max_int : Z := 2 ^ 63 - 1.

Definition fits_int (z : Z) : bool := (min_int <=? z) && (z <=? max_int).

(** Two's complement wrap-around of a 64-bit [int]. *)
Definition wrap64 (z : Z) : Z := (z + 2 ^ 63) mod 2 ^ 64 - 2 ^ 63.

(** [i++] on an [int]. *)
Definition incr (z : Z) : Z := wrap64 (z + 1).

Definition prec : Z := 53.
Definition emax : Z := 1024.

Abbreviation float64 := spec_float.

(** [float64(n)] for an [int] [n]: rounding to nearest, ties to even. *)
Definition float64_of_int (n : Z) : float64 := binary_normalize prec emax n 0 false.

(** [x * y] on [float64]. *)
Definition fmul (x y : float64) : float64 := SFmul prec emax x y.

(** The integer [ceil (v * 2^e)]; a shift by a negative amount is a floor
    division, so the ceiling is the negated floor of the negation. *)
Definition ceilZ (v e : Z) : Z := - Z.shiftl (- v) e.

(** [math.Ceil]: the least integer value greater than or equal to [x], with
    [Ceil(±0) = ±0], [Ceil(±Inf) = ±Inf] and [Ceil(NaN) = NaN]. *)
Definition Ceil (x : float64) : float64 :=
  match x with
  | S754_finite sx mx ex =>
      binary_normalize prec emax (ceilZ (cond_Zopp sx (Zpos mx)) ex) 0 sx
  | _ => x
  end.

(** The integer part of a finite [float64], truncated towards zero. *)
Definition truncZ (x : float64) : option Z :=
  match x with
  | S754_zero _ => Some 0
  | S754_finite sx mx ex => Some (cond_Zopp sx (Z.shiftl (Zpos mx) ex))
  | _ => None
  end.

Section Conversion.

(** Go leaves the result of [int(x)] to the implementation when [x] is NaN,
    infinite, or outside the range of [int]. *)
Variable int_unrepresentable : float64 -> Z.

(** [int(x)] for a [float64] [x]. *)
Definition int_of_float64 (x : float64) : Z :=
  match truncZ x with
  | Some z => if fits_int z then z else int_unrepresentable x
  | None => int_unrepresentable x
  end.

End Conversion.

(** ** Data model *)

(** Validate is scenario validation structure. *)
Record Validate : Type := mkValidate {
  ValidateName : string;
  StatusCode : option Z
}.

(** Scenario is scenario data. *)
Record Scenario : Type := mkScenario {
  Name : string;
  URL : string;
  Period : option Z;
  Count : option Z;
  Throughput : float64;
  Validates : list Validate
}.


(** ResultState is state of scenario result. *)
Inductive ResultState : Type :=
| ResultOK
| ResultValidationFail
| ResultRequestFail.

(** ScenarioReport is aggregated scenario result. *)
Record ScenarioReport : Type := mkReport {
  SuccessCount : Z;
  ValidationFailCount : Z;
  RequestFailCount : Z
}.



(** ** The target count (main.go, lines 165-170) *)

Inductive Panic : Type :=
| NilDereference      (* [*s.Count] with [s.Count == nil] *)
| MakechanSize.       (* [make(chan Scenario, n)] with [n < 0] *)

Section TargetCount.

Variable int_unrepresentable : float64 -> Z.

Definition targetCount (s : Scenario) : Panic + Z :=
  match Period s with
  | Some p =>
      inr (int_of_float64 int_unrepresentable
             (Ceil (fmul (float64_of_int p) (Throughput s))))
  | None =>
      match Count s with
      | Some n => inr n
      | None => inl NilDereference
      end
  end.

End TargetCount.

(** ** One work unit in [scenarioWorker] (main.go, lines 105-138) *)

(** What the HTTP client does with one GET: [http.NewRequest] fails,
    [http.DefaultClient.Do] fails, or a response with a status code arrives. *)
Inductive HttpResult : Type :=
| NewRequestErr
| DoErr
| Response (code : Z).

(** The channel operations of the worker, in program order. *)
Inductive Effect : Type :=
| SendReport (r : ResultState)      (* [reportCh <- r] *)
| SendDone.                         (* [done <- struct{}{}] *)

(** How the iteration of the loop [L] ends. *)
Inductive Next : Type :=
| ContinueL      (* next iteration of [L] *)
| Return.        (* the goroutine ends *)

(** The condition of line 127. *)
Definition rule_fails (v : Validate) (code : Z) : bool :=
  match StatusCode v with
  | Some want => negb (code =? want)
  | None => false
  end.

(** The loop of lines 125-134 over [s.Validates]: the rules whose condition
    was evaluated, in order, and the rule that failed, if any. *)
Fixpoint run_validates (vs : list Validate) (code : Z)
  : list Validate * option Validate :=
  match vs with
  | [] => ([], None)
  | v :: vs' =>
      if rule_fails v code then ([v], Some v)
      else let '(seen, failed) := run_validates vs' code in (v :: seen, failed)
  end.

Record UnitRun : Type := mkUnitRun {
  evaluated : list Validate;
  effects : list Effect;
  next : Next
}.

(** The body of the loop [L] after a unit has been received. Log lines and
    the [cancel] of the request's own timeout touch no channel and are left
    out. *)
Definition worker_unit (s : Scenario) (h : HttpResult) : UnitRun :=
  match h with
  | NewRequestErr =>
      mkUnitRun [] [SendReport ResultRequestFail; SendDone] Return
  | DoErr =>
      mkUnitRun [] [SendReport ResultRequestFail; SendDone] Return
  | Response code =>
      match run_validates (Validates s) code with
      | (seen, Some _) => mkUnitRun seen [SendReport ResultValidationFail] ContinueL
      | (seen, None) => mkUnitRun seen [SendReport ResultOK; SendDone] ContinueL
      end
  end.

(** The outcome reported for a unit. *)
Definition outcome (s : Scenario) (h : HttpResult) : list ResultState :=
  omap (fun e => match e with SendReport r => Some r | SendDone => None end)
       (effects (worker_unit s h)).

Definition is_done (e : Effect) : bool :=
  match e with SendDone => true | SendReport _ => false end.

Definition is_report (e : Effect) : bool :=
  match e with SendDone => false | SendReport _ => true end.

(** The number of completion signals of a unit. *)
Definition completions_of (s : Scenario) (h : HttpResult) : nat :=
  length (filter (fun e => is_done e = true) (effects (worker_unit s h))).

Definition reports_of (s : Scenario) (h : HttpResult) : nat :=
  length (filter (fun e => is_report e = true) (effects (worker_unit s h))).

(** ** The rate limiter *)

(** Modelled from the spec: the limiter of [golang.org/x/time/rate] behind
    [rl.Wait] is not part of the sources. The spec's RateSource emits permits
    for a positive rate, never emits at rate 0, and stops once cancellation is
    raised. Rates the spec does not describe are left free to emit. *)
Definition limiter_emits (r : float64) : bool :=
  match r with
  | S754_zero _ => false
  | _ => true
  end.

(** ** The goroutines of [ScenarioRun] (main.go, lines 150-218) *)

(** The goroutine of lines 154-163. *)
Inductive LimiterPC : Type :=
| LWait          (* inside [rl.Wait(ctx)] *)
| LSend          (* blocked on [rlCh <- struct{}{}] *)
| LStopped.      (* returned; [rlCh] is closed *)

(** The goroutine of lines 180-199. *)
Inductive DispatcherPC : Type :=
| DSelect (i : Z)       (* line 184, blocked in the [select] *)
| DEnqueue (i : Z)      (* line 192, blocked on [scenarioCh <- s] *)
| DDrain (i : Z)        (* line 197, blocked on [<-done] *)
| DReturned.            (* returned; [reportCh] is closed *)

(** One [scenarioWorker] goroutine. *)
Inductive WorkerPC : Type :=
| WSelect                                     (* line 100 *)
| WRequest (u : Scenario)                     (* lines 105-115 *)
| WSend (pending : list Effect) (k : Next)    (* blocked on the first send *)
| WReturned.

Record State : Type := mkState {
  ctx_done : bool;                (* [ctx.Done()] is closed *)
  limiter : LimiterPC;
  dispatcher : DispatcherPC;
  disp_c : Z;                     (* the dispatcher's [c] *)
  scenarioCh : list Scenario;     (* the buffered queue, oldest first *)
  workers : list WorkerPC;
  report : ScenarioReport;        (* [success], [validationFail], [requestFail] *)
  returned : bool;                (* [ScenarioRun] has returned [report] *)
  panicked : bool;                (* a send on the closed [reportCh] *)
  enqueued : nat;                 (* history: completed [scenarioCh <- s] *)
  completions : nat               (* history: completed [<-done] *)
}.

Definition set_ctx_done (b : bool) (st : State) : State :=
  mkState b (limiter st) (dispatcher st) (disp_c st) (scenarioCh st) (workers st)
          (report st) (returned st) (panicked st) (enqueued st) (completions st).

Definition set_limiter (l : LimiterPC) (st : State) : State :=
  mkState (ctx_done st) l (dispatcher st) (disp_c st) (scenarioCh st) (workers st)
          (report st) (returned st) (panicked st) (enqueued st) (completions st).

Definition set_dispatcher (d : DispatcherPC) (st : State) : State :=
  mkState (ctx_done st) (limiter st) d (disp_c st) (scenarioCh st) (workers st)
          (report st) (returned st) (panicked st) (enqueued st) (completions st).

Definition set_disp_c (c : Z) (st : State) : State :=
  mkState (ctx_done st) (limiter st) (dispatcher st) c (scenarioCh st) (workers st)
          (report st) (returned st) (panicked st) (enqueued st) (completions st).

Definition set_scenarioCh (q : list Scenario) (st : State) : State :=
  mkState (ctx_done st) (limiter st) (dispatcher st) (disp_c st) q (workers st)
          (report st) (returned st) (panicked st) (enqueued st) (completions st).

Definition set_worker (w : nat) (pc : WorkerPC) (st : State) : State :=
  mkState (ctx_done st) (limiter st) (dispatcher st) (disp_c st) (scenarioCh st)
          (<[w := pc]> (workers st))
          (report st) (returned st) (panicked st) (enqueued st) (completions st).

Definition set_report (r : ScenarioReport) (st : State) : State :=
  mkState (ctx_done st) (limiter st) (dispatcher st) (disp_c st) (scenarioCh st) (workers st)
          r (returned st) (panicked st) (enqueued st) (completions st).

Definition set_returned (b : bool) (st : State) : State :=
  mkState (ctx_done st) (limiter st) (dispatcher st) (disp_c st) (scenarioCh st) (workers st)
          (report st) b (panicked st) (enqueued st) (completions st).

Definition set_panicked (b : bool) (st : State) : State :=
  mkState (ctx_done st) (limiter st) (dispatcher st) (disp_c st) (scenarioCh st) (workers st)
          (report st) (returned st) b (enqueued st) (completions st).

Definition tick_enqueued (st : State) : State :=
  mkState (ctx_done st) (limiter st) (dispatcher st) (disp_c st) (scenarioCh st) (workers st)
          (report st) (returned st) (panicked st) (S (enqueued st)) (completions st).

Definition tick_completions (st : State) : State :=
  mkState (ctx_done st) (limiter st) (dispatcher st) (disp_c st) (scenarioCh st) (workers st)
          (report st) (returned st) (panicked st) (enqueued st) (S (completions st)).

(** The [switch] of lines 203-211. *)
Definition count_result (r : ResultState) (rep : ScenarioReport) : ScenarioReport :=
  match r with
  | ResultOK =>
      mkReport (incr (SuccessCount rep)) (ValidationFailCount rep) (RequestFailCount rep)
  | ResultValidationFail =>
      mkReport (SuccessCount rep) (incr (ValidationFailCount rep)) (RequestFailCount rep)
  | ResultRequestFail =>
      mkReport (SuccessCount rep) (ValidationFailCount rep) (incr (RequestFailCount rep))
  end.

(** Where a worker stands once the sends in [pending] are left to do. *)
Definition resume (pending : list Effect) (k : Next) : WorkerPC :=
  match pending with
  | [] => match k with ContinueL => WSelect | Return => WReturned end
  | _ :: _ => WSend pending k
  end.

(** The moves of the goroutines and of their environment. The channels
    [rlCh], [done] and [reportCh] are unbuffered, so a send and its receive
    are one move. *)
Inductive Event : Type :=
| CtxCancel                            (* the context is cancelled *)
| LimiterPermit                        (* [rl.Wait] returns nil *)
| LimiterStop                          (* [rl.Wait] returns an error *)
| DispatcherPermit                     (* [<-rlCh] meets [rlCh <- struct{}{}] *)
| DispatcherClosed                     (* [<-rlCh] on the closed channel *)
| DispatcherCancel                     (* [<-ctx.Done()] in the dispatcher *)
| DispatcherEnqueue                    (* [scenarioCh <- s] *)
| DispatcherDone (w : nat)             (* [<-done] meets worker [w] *)
| WorkerCancel (w : nat)               (* [<-ctx.Done()] in worker [w] *)
| WorkerTake (w : nat)                 (* [s = <-scenarioCh] in worker [w] *)
| WorkerHttp (w : nat) (h : HttpResult)  (* the request of worker [w] ends *)
| WorkerReport (w : nat)               (* [reportCh <- r] of worker [w] *)
| AggregatorReturn.                    (* [range reportCh] ends *)

Section Core.

Variable s : Scenario.
Variable httpWorkerNum : nat.
Variable count : Z.

(** The test of the loop of line 196. *)
Definition drain (i c : Z) : DispatcherPC :=
  if i <? c then DDrain i else DReturned.

(** The test of the loop of line 183. *)
Definition dispatch (i c : Z) : DispatcherPC :=
  if i <=? count then DSelect i else drain 0 c.

(** The goroutines as lines 151-178 start them. *)
Definition init : State :=
  mkState false LWait (dispatch 1 0) 0 [] (replicate httpWorkerNum WSelect)
          (mkReport 0 0 0) false false 0%nat 0%nat.

(** One move, when it is enabled. A panic in any goroutine ends the process,
    so nothing moves after it. *)
Definition step (e : Event) (st : State) : option State :=
  if panicked st then None else
  match e with
  | CtxCancel =>
      if ctx_done st then None else Some (set_ctx_done true st)
  | LimiterPermit =>
      match limiter st with
      | LWait =>
          if negb (ctx_done st) && limiter_emits (Throughput s)
          then Some (set_limiter LSend st) else None
      | _ => None
      end
  | LimiterStop =>
      match limiter st with
      | LWait => if ctx_done st then Some (set_limiter LStopped st) else None
      | _ => None
      end
  | DispatcherPermit =>
      match dispatcher st, limiter st with
      | DSelect i, LSend =>
          Some (set_dispatcher (DEnqueue i)
                  (set_disp_c (incr (disp_c st)) (set_limiter LWait st)))
      | _, _ => None
      end
  | DispatcherClosed =>
      match dispatcher st, limiter st with
      | DSelect i, LStopped => Some (set_dispatcher DReturned st)
      | _, _ => None
      end
  | DispatcherCancel =>
      match dispatcher st with
      | DSelect i => if ctx_done st then Some (set_dispatcher DReturned st) else None
      | _ => None
      end
  | DispatcherEnqueue =>
      match dispatcher st with
      | DEnqueue i =>
          if (length (scenarioCh st) <? httpWorkerNum)%nat
          then Some (set_dispatcher (dispatch (incr i) (disp_c st))
                       (set_scenarioCh (scenarioCh st ++ [s]) (tick_enqueued st)))
          else None
      | _ => None
      end
  | DispatcherDone w =>
      match dispatcher st, workers st !! w with
      | DDrain i, Some (WSend (SendDone :: rest) k) =>
          Some (set_dispatcher (drain (incr i) (disp_c st))
                  (set_worker w (resume rest k) (tick_completions st)))
      | _, _ => None
      end
  | WorkerCancel w =>
      match workers st !! w with
      | Some WSelect => if ctx_done st then Some (set_worker w WReturned st) else None
      | _ => None
      end
  | WorkerTake w =>
      match workers st !! w, scenarioCh st with
      | Some WSelect, u :: q => Some (set_worker w (WRequest u) (set_scenarioCh q st))
      | _, _ => None
      end
  | WorkerHttp w h =>
      match workers st !! w with
      | Some (WRequest u) =>
          let r := worker_unit u h in
          Some (set_worker w (resume (effects r) (next r)) st)
      | _ => None
      end
  | WorkerReport w =>
      match workers st !! w with
      | Some (WSend (SendReport r :: rest) k) =>
          match dispatcher st with
          | DReturned => Some (set_panicked true st)
          | _ => Some (set_worker w (resume rest k)
                         (set_report (count_result r (report st)) st))
          end
      | _ => None
      end
  | AggregatorReturn =>
      match dispatcher st with
      | DReturned => if returned st then None else Some (set_returned true st)
      | _ => None
      end
  end.

(** A schedule, played from a state. *)
Fixpoint run (tr : list Event) (st : State) : option State :=
  match tr with
  | [] => Some st
  | e :: tr' =>
      match step e st with
      | Some st' => run tr' st'
      | None => None
      end
  end.

Definition reachable_from (st0 st : State) : Prop :=
  exists tr, run tr st0 = Some st.

Definition reachable (st : State) : Prop := reachable_from init st.


End Core.

(** ** [ScenarioRun] and [main] *)

Section Run.

Variable int_unrepresentable : float64 -> Z.

(** Lines 151-178: the state in which the goroutines start, or the panic
    that precedes them. *)
Definition ScenarioRun (httpWorkerNum : Z) (s : Scenario) : Panic + State :=
  match targetCount int_unrepresentable s with
  | inl p => inl p
  | inr n =>
      if httpWorkerNum <? 0 then inl MakechanSize
      else inr (init (Z.to_nat httpWorkerNum) n)
  end.


End Run.

(** * Vocabulary of the properties *)

(** ** Sample scenarios *)

(** The conversion of the amd64 port: every unrepresentable value becomes the
    smallest [int]. *)
Definition amd64_unrepresentable (_ : float64) : Z := min_int.

(** 1 and 2 as [float64]: [float64_of_int 1] and [float64_of_int 2]. *)
Definition float_one : float64 := S754_finite false 4503599627370496 (-52).
Definition float_two : float64 := S754_finite false 4503599627370496 (-51).
(** The [float64] nearest to the decimals 0.1 and 0.07. *)
Definition float_tenth : float64 := S754_finite false 7205759403792794 (-56).
Definition float_7_hundredths : float64 := S754_finite false 5044031582654956 (-56).

Definition status_200 : Validate := mkValidate "status_code=200" (Some 200).
Definition status_204 : Validate := mkValidate "status_code=204" (Some 204).
Definition any_status : Validate := mkValidate "any" None.

Definition ping (period count : option Z) (rate : float64) : Scenario :=
  mkScenario "ping" "https://google.com" period count rate [status_200].

(** ** Predicates on floats and states *)

(** A [float64] that is neither infinite nor NaN. *)
Definition settled (x : float64) : Prop :=
  match x with
  | S754_zero _ | S754_finite _ _ _ => True
  | _ => False
  end.

Definition is_zero (x : float64) : Prop :=
  match x with
  | S754_zero _ => True
  | _ => False
  end.

Definition no_report : ScenarioReport := mkReport 0 0 0.

(** A shifted mantissa with no bit lost. *)
Definition exact_record (m : Z) : shr_record := Build_shr_record m false false.

(** A worker that holds no unit. *)
Definition worker_idle (pc : WorkerPC) : bool :=
  match pc with
  | WSelect | WReturned => true
  | _ => false
  end.

Definition worker_returned (pc : WorkerPC) : bool :=
  match pc with
  | WReturned => true
  | _ => false
  end.

Definition draining (d : DispatcherPC) : bool :=
  match d with
  | DDrain _ => true
  | _ => false
  end.

(** The dispatcher waits on [done] while no worker holds a unit and either
    the queue is empty or every worker has returned: no completion signal
    can come any more. *)
Definition starved (st : State) : Prop :=
  draining (dispatcher st) = true
  /\ returned st = false
  /\ ((scenarioCh st = [] /\ forallb worker_idle (workers st) = true)
      \/ forallb worker_returned (workers st) = true).

(** A worker blocked on [done <- struct{}{}]. *)
Definition worker_on_done (pc : WorkerPC) : bool :=
  match pc with
  | WSend (SendDone :: _) _ => true
  | _ => false
  end.

(** The dispatcher is blocked on a full queue while every worker is blocked
    on [done]. *)
Definition jammed (httpWorkerNum : nat) (st : State) : Prop :=
  (exists i, dispatcher st = DEnqueue i)
  /\ returned st = false
  /\ length (scenarioCh st) = httpWorkerNum
  /\ forallb worker_on_done (workers st) = true.

(** What the dispatcher's variables satisfy at each of its program points,
    as long as the loop counter cannot wrap around. *)
Definition dispatch_inv (count : Z) (st : State) : Prop :=
  min_int <= disp_c st <= max_int
  /\ (count < max_int ->
      match dispatcher st with
      | DSelect i =>
          1 <= i <= count /\ disp_c st = i - 1 /\ Z.of_nat (enqueued st) = i - 1
      | DEnqueue i =>
          1 <= i <= count /\ disp_c st = i /\ Z.of_nat (enqueued st) = i - 1
      | DDrain _ | DReturned =>
          0 <= disp_c st <= Z.max 0 count /\ Z.of_nat (enqueued st) = disp_c st
      end).


(** ** The ledger of units *)

(** The program points of a worker between two units. *)
Definition worker_wf (pc : WorkerPC) : bool :=
  match pc with
  | WSelect | WRequest _ | WReturned => true
  | WSend [SendReport ResultRequestFail; SendDone] Return => true
  | WSend [SendReport ResultValidationFail] ContinueL => true
  | WSend [SendReport ResultOK; SendDone] ContinueL => true
  | WSend [SendDone] _ => true
  | WSend _ _ => false
  end.

(** The worker holds a unit whose outcome is not reported yet. *)
Definition holding (pc : WorkerPC) : nat :=
  match pc with
  | WRequest _ => 1
  | WSend (SendReport _ :: _) _ => 1
  | _ => 0
  end.

(** The worker has reported and still owes the completion signal. *)
Definition owing (pc : WorkerPC) : nat :=
  match pc with
  | WSend (SendDone :: _) _ => 1
  | _ => 0
  end.

Fixpoint tally (f : WorkerPC -> nat) (ws : list WorkerPC) : nat :=
  match ws with
  | [] => 0
  | pc :: ws' => f pc + tally f ws'
  end.

(** The sum of the three counters of a summary. *)
Definition total (rep : ScenarioReport) : Z :=
  SuccessCount rep + ValidationFailCount rep + RequestFailCount rep.

(** Every unit enqueued is in the queue, in a worker's hands or counted in
    the summary; every success or request failure counted has its completion
    signal either received or owed; the dispatcher has received as many
    signals as its drain loop went round, and closes the result channel after
    [c] of them unless the context was cancelled. *)
Definition ledger (st : State) : Prop :=
  forallb worker_wf (workers st) = true
  /\ 0 <= SuccessCount (report st)
  /\ 0 <= ValidationFailCount (report st)
  /\ 0 <= RequestFailCount (report st)
  /\ Z.of_nat (enqueued st)
     = Z.of_nat (length (scenarioCh st)) + Z.of_nat (tally holding (workers st))
       + total (report st)
  /\ SuccessCount (report st) + RequestFailCount (report st)
     = Z.of_nat (completions st) + Z.of_nat (tally owing (workers st))
  /\ match dispatcher st with
     | DSelect _ | DEnqueue _ => completions st = 0%nat
     | DDrain i => 0 <= i < disp_c st /\ Z.of_nat (completions st) = i
     | DReturned => ctx_done st = true \/ Z.of_nat (completions st) = disp_c st
     end
  /\ (limiter st = LStopped -> ctx_done st = true)
  /\ (returned st = true -> dispatcher st = DReturned).

(** ** Sample schedules *)

(** The default of the flag [-c]. *)
Definition default_pool : nat := 100.

(** One request, or two, at one per second, expecting status 200. *)
Definition one_shot : Scenario := ping None (Some 1) float_one.
Definition two_shot : Scenario := ping None (Some 2) float_one.

(** One unit is dispatched and taken by worker 0. *)
Definition first_unit_taken : list Event :=
  [LimiterPermit; DispatcherPermit; DispatcherEnqueue; WorkerTake 0].

(** Both units of [two_shot] are queued before any worker moves. *)
Definition both_units_enqueued : list Event :=
  [LimiterPermit; DispatcherPermit; DispatcherEnqueue;
   LimiterPermit; DispatcherPermit; DispatcherEnqueue].

(** Worker [w] serves one unit with success and blocks on [done]. *)
Definition served_by (w : nat) : list Event :=
  [LimiterPermit; DispatcherPermit; DispatcherEnqueue;
   WorkerTake w; WorkerHttp w (Response 200); WorkerReport w].

(** Every worker of the default pool has served a unit, the queue has been
    filled behind them, and one more permit has arrived. *)
Definition pool_and_queue_full : list Event :=
  concat (map served_by (seq 0 default_pool))
    ++ concat (replicate default_pool [LimiterPermit; DispatcherPermit; DispatcherEnqueue])
    ++ [LimiterPermit; DispatcherPermit].

(** One unit goes its whole way through worker 0 and fails validation. *)
Definition rejected_unit : list Event :=
  [LimiterPermit; DispatcherPermit; DispatcherEnqueue;
   WorkerTake 0; WorkerHttp 0 (Response 404); WorkerReport 0].

(** As many requests as the largest [int] counts. *)
Definition endless : Scenario := ping None (Some max_int) float_one.

(** The dispatcher is in its [select], the queue is empty and worker 0 is
    free. *)
Definition between_units (st : State) : Prop :=
  ctx_done st = false
  /\ limiter st = LWait
  /\ (exists i, dispatcher st = DSelect i)
  /\ scenarioCh st = []
  /\ workers st !! 0%nat = Some WSelect
  /\ panicked st = false.

(** The endpoint answers 404 to the only unit of [one_shot]. *)
Definition answered_404 : list Event :=
  first_unit_taken ++ [WorkerHttp 0 (Response 404); WorkerReport 0].

(** The connection for the only unit of [one_shot] fails, and the dispatcher
    receives the completion signal. *)
Definition connection_refused : list Event :=
  first_unit_taken ++ [WorkerHttp 0 DoErr; WorkerReport 0; DispatcherDone 0].

(** With a pool of one worker ([-c 1]), the connection for the first unit of
    [two_shot] fails, the second unit is queued, and the dispatcher receives
    the completion signal of the first. *)
Definition only_worker_lost : list Event :=
  first_unit_taken
    ++ [WorkerHttp 0 DoErr; WorkerReport 0;
        LimiterPermit; DispatcherPermit; DispatcherEnqueue; DispatcherDone 0].

(** The run is interrupted while the first unit of [two_shot] is in flight. *)
Definition interrupted_in_flight : list Event :=
  first_unit_taken ++ [CtxCancel; DispatcherCancel].

(** The run of [one_shot] is interrupted between the permit and the enqueue:
    every worker sees the cancellation and leaves, then the unit is queued. *)
Definition interrupted_before_enqueue : list Event :=
  [LimiterPermit; DispatcherPermit; CtxCancel]
    ++ map WorkerCancel (seq 0 default_pool) ++ [DispatcherEnqueue].

(** ** The report map of [main] (main.go, lines 253-266) *)

(** The goroutine of a scenario stores what [ScenarioRun] returned under the
    scenario's name, holding the mutex: [reports[s.Name] = report]. *)
Definition store_report (reports : gmap string ScenarioReport)
    (done : Scenario * ScenarioReport) : gmap string ScenarioReport :=
  <[Name done.1 := done.2]> reports.

(** The map after [wg.Wait()], the scenarios listed in the order in which
    their goroutines took the mutex. *)
Definition collect (finished : list (Scenario * ScenarioReport))
  : gmap string ScenarioReport :=
  foldl store_report ∅ finished.

(** The finished run belongs to a scenario called [n]. *)
Definition named (n : string) (done : Scenario * ScenarioReport) : Prop :=
  Name done.1 = n.

#[global] Instance named_dec n done : Decision (named n done).
Proof. unfold named. apply _. Defined.

(** ** Further predicates on states *)

(** Some rule of the list fails on the status code. *)
Definition any_rule_fails (vs : list Validate) (code : Z) : bool :=
  existsb (fun v => rule_fails v code) vs.

(** Permits already granted that the dispatcher has still to turn into queued
    units: one in the limiter's hands, one in the dispatcher's. *)
Definition pending_dispatch (st : State) : nat :=
  (match limiter st with LSend => 1 | _ => 0 end
   + match dispatcher st with DEnqueue _ => 1 | _ => 0 end)%nat.

(** Nothing was dispatched and the result channel is closed. *)
Definition unused (st : State) : Prop :=
  dispatcher st = DReturned
  /\ disp_c st = 0
  /\ scenarioCh st = []
  /\ forallb worker_idle (workers st) = true
  /\ report st = no_report
  /\ enqueued st = 0%nat
  /\ completions st = 0%nat
  /\ panicked st = false.

(** The queue respects its capacity and the pool keeps its size. *)
Definition sized (W : nat) (st : State) : Prop :=
  (length (scenarioCh st) <= W)%nat /\ length (workers st) = W.

(** The drain loop is entered only after the dispatch loop ran to its end;
    the result channel is closed after that, or after a cancellation. *)
Definition loop_done (N : Z) (st : State) : Prop :=
  match dispatcher st with
  | DDrain _ => disp_c st = Z.max 0 N
  | DReturned => ctx_done st = true \/ disp_c st = Z.max 0 N
  | _ => True
  end.

(** The dispatch is at most two pool sizes ahead of the validation
    failures. *)
Definition lead (W : nat) (st : State) : Prop :=
  Z.of_nat (enqueued st) <= 2 * Z.of_nat W + ValidationFailCount (report st).

Definition audit (W : nat) (N : Z) (st : State) : Prop :=
  dispatch_inv N st /\ ledger st /\ sized W st /\ loop_done N st /\ lead W st.

(** With a pool of no worker ([-c 0]) nothing is ever queued, and the result
    channel is closed only after a cancellation or for a target count that
    asks for nothing. *)
Definition empty_pool (N : Z) (st : State) : Prop :=
  workers st = []
  /\ scenarioCh st = []
  /\ report st = no_report
  /\ enqueued st = 0%nat
  /\ completions st = 0%nat
  /\ panicked st = false
  /\ (limiter st = LStopped -> ctx_done st = true)
  /\ match dispatcher st with
     | DDrain _ => False
     | DReturned => ctx_done st = true \/ N <= 0
     | _ => True
     end
  /\ (returned st = true -> dispatcher st = DReturned).

(** ** A run that completes *)

(** The units the pool takes at once, and the units that wait in the queue
    until a worker is free again. *)
Definition first_wave (W n : nat) : nat := Nat.min n W.
Definition second_wave (W n : nat) : nat := (n - Nat.min n W)%nat.

(** [n] permits are turned into [n] queued units. *)
Definition fill (n : nat) : list Event :=
  concat (replicate n [LimiterPermit; DispatcherPermit; DispatcherEnqueue]).

(** Workers [0 .. n-1] each take a unit, get the answer [code] and report. *)
Definition serve (code : Z) (n : nat) : list Event :=
  concat (map (fun w => [WorkerTake w; WorkerHttp w (Response code); WorkerReport w])
              (seq 0 n)).

(** Workers [0 .. n-1] each hand over their completion signal, take the next
    unit, get the answer [code] and report. *)
Definition recycle (code : Z) (n : nat) : list Event :=
  concat (map (fun w => [DispatcherDone w; WorkerTake w;
                         WorkerHttp w (Response code); WorkerReport w])
              (seq 0 n)).

(** The dispatcher receives the completion signals of workers [0 .. n-1]. *)
Definition drain_all (n : nat) : list Event := map DispatcherDone (seq 0 n).

(** The pool serves the first wave while the dispatcher queues the second,
    the drain loop frees the workers that serve the second wave, then
    receives the remaining completion signals. *)
Definition smooth_run (code : Z) (W n : nat) : list Event :=
  fill (first_wave W n) ++ serve code (first_wave W n)
    ++ fill (second_wave W n) ++ recycle code (second_wave W n)
    ++ drain_all (first_wave W n) ++ [AggregatorReturn].

(** A worker that has reported a success and is blocked on [done]. *)
Definition done_owed : WorkerPC := WSend [SendDone] ContinueL.

(** The states along [smooth_run]: [k] units of the first wave queued; [j]
    of them served; [k] units of the second wave queued; [j] of them served;
    [m] of the remaining completion signals received. *)
Definition filled (s : Scenario) (W n k : nat) : State :=
  mkState false LWait (dispatch (Z.of_nat n) (Z.of_nat k + 1) (Z.of_nat k)) (Z.of_nat k)
          (replicate k s) (replicate W WSelect) (mkReport 0 0 0)
          false false k 0%nat.

Definition served (s : Scenario) (W n j : nat) : State :=
  let a := first_wave W n in
  mkState false LWait (dispatch (Z.of_nat n) (Z.of_nat a + 1) (Z.of_nat a)) (Z.of_nat a)
          (replicate (a - j) s)
          (replicate j done_owed ++ replicate (W - j) WSelect)
          (mkReport (Z.of_nat j) 0 0) false false a 0%nat.

Definition refilled (s : Scenario) (W n k : nat) : State :=
  let a := first_wave W n in
  mkState false LWait
          (dispatch (Z.of_nat n) (Z.of_nat (a + k) + 1) (Z.of_nat (a + k)))
          (Z.of_nat (a + k))
          (replicate k s)
          (replicate a done_owed ++ replicate (W - a) WSelect)
          (mkReport (Z.of_nat a) 0 0) false false (a + k) 0%nat.

Definition recycled (s : Scenario) (W n j : nat) : State :=
  let a := first_wave W n in
  let b := second_wave W n in
  mkState false LWait (drain (Z.of_nat j) (Z.of_nat n)) (Z.of_nat n)
          (replicate (b - j) s)
          (replicate a done_owed ++ replicate (W - a) WSelect)
          (mkReport (Z.of_nat (a + j)) 0 0) false false n j.

Definition drained (W n m : nat) : State :=
  let a := first_wave W n in
  let b := second_wave W n in
  mkState false LWait (drain (Z.of_nat (b + m)) (Z.of_nat n)) (Z.of_nat n) []
          (replicate m WSelect ++ replicate (a - m) done_owed ++ replicate (W - a) WSelect)
          (mkReport (Z.of_nat n) 0 0) false false n (b + m).

(** ** Further sample schedules *)

(** The endpoint answers 200 to the only unit of [one_shot] and the run
    completes. *)
Definition answered_200 : list Event :=
  first_unit_taken
    ++ [WorkerHttp 0 (Response 200); WorkerReport 0; DispatcherDone 0; AggregatorReturn].

(** The run of [two_shot] is interrupted with one permit in the limiter's
    hands and one in the dispatcher's. *)
Definition interrupted_with_two_permits : list Event :=
  [LimiterPermit; DispatcherPermit; LimiterPermit; CtxCancel].

(** A scenario of another name. *)
Definition pong : Scenario :=
  mkScenario "pong" "https://example.com" (Some 1) None float_one [].

(** Inversion of a step that took place. *)
Ltac step_inv H :=
  unfold step in H;
  repeat match type of H with
    | context [match ?x with _ => _ end] => destruct x eqn:?; try discriminate H
    end;
  injection H as <-; simpl in *; subst; simpl in *.

(** * Proofs *)

(** ** Machine arithmetic *)

(** The sample rates are the [float64] they stand for. *)
Lemma sample_rates :
  float_one = float64_of_int 1
  /\ float_two = float64_of_int 2
  /\ valid_binary prec emax float_tenth = true
  /\ valid_binary prec emax float_7_hundredths = true.
Proof. repeat split. Qed.

Lemma wrap64_id z : min_int <= z <= max_int -> wrap64 z = z.
Proof.
  unfold wrap64, min_int, max_int. intros H.
  rewrite Z.mod_small by lia. lia.
Qed.

Lemma wrap64_range z : min_int <= wrap64 z <= max_int.
Proof.
  unfold wrap64, min_int, max_int.
  pose proof (Z.mod_pos_bound (z + 2 ^ 63) (2 ^ 64) ltac:(lia)). lia.
Qed.

Lemma incr_id z : min_int <= z < max_int -> incr z = z + 1.
Proof. intros H. unfold incr. apply wrap64_id. lia. Qed.

Lemma digits2_pos_size m : digits2_pos m = Pos.size m.
Proof. induction m; simpl; congruence. Qed.

Lemma Zdigits2_nonneg n : 0 <= Zdigits2 n.
Proof. destruct n; simpl; lia. Qed.

Lemma Zdigits2_log2 n : 0 < n -> Zdigits2 n = Z.log2 n + 1.
Proof.
  destruct n as [|p|p]; try lia. intros _. simpl. rewrite digits2_pos_size.
  destruct p; simpl; lia.
Qed.

Lemma Zdigits2_mono a b : 0 <= a <= b -> Zdigits2 a <= Zdigits2 b.
Proof.
  intros [Ha Hab]. destruct (Z.eq_dec a 0) as [->|Hne].
  - apply Zdigits2_nonneg.
  - rewrite !Zdigits2_log2 by lia. pose proof (Z.log2_le_mono a b Hab). lia.
Qed.

Lemma Zdigits2_succ a : 0 <= a -> Zdigits2 (a + 1) <= Zdigits2 a + 1.
Proof.
  intros Ha. destruct (Z.eq_dec a 0) as [->|Hne]; [simpl; lia|].
  rewrite !Zdigits2_log2 by lia.
  assert (H : Z.log2 (a + 1) <= Z.log2 (2 * a)) by (apply Z.log2_le_mono; lia).
  rewrite Z.log2_double in H by lia. lia.
Qed.

Lemma shr_1_m mrs : 0 <= shr_m mrs -> 0 <= shr_m (shr_1 mrs) <= shr_m mrs.
Proof.
  destruct mrs as [m r t]. simpl. intros Hm.
  destruct m as [|[p|p|]|p]; simpl; lia.
Qed.

Lemma iter_shr_1_m n :
  forall mrs, 0 <= shr_m mrs -> 0 <= shr_m (SpecFloat.iter_pos shr_1 n mrs) <= shr_m mrs.
Proof.
  induction n as [n IH|n IH|]; intros mrs Hm; simpl.
  - pose proof (shr_1_m mrs Hm).
    pose proof (IH (shr_1 mrs) ltac:(lia)).
    pose proof (IH (SpecFloat.iter_pos shr_1 n (shr_1 mrs)) ltac:(lia)). lia.
  - pose proof (IH mrs Hm).
    pose proof (IH (SpecFloat.iter_pos shr_1 n mrs) ltac:(lia)). lia.
  - now apply shr_1_m.
Qed.

Lemma shr_record_of_loc_m m l : shr_m (shr_record_of_loc m l) = m.
Proof. destruct l as [|[]]; reflexivity. Qed.

Lemma shr_fexp_bounds m e l :
  0 <= m ->
  0 <= shr_m (fst (shr_fexp prec emax m e l)) <= m
  /\ snd (shr_fexp prec emax m e l) = Z.max e (fexp prec emax (Zdigits2 m + e)).
Proof.
  intros Hm. unfold shr_fexp, shr.
  destruct (fexp prec emax (Zdigits2 m + e) - e) as [|n|n] eqn:Hn; simpl.
  - rewrite shr_record_of_loc_m. lia.
  - split; [|lia].
    pose proof (iter_shr_1_m n (shr_record_of_loc m l)) as H.
    rewrite shr_record_of_loc_m in H. now apply H.
  - rewrite shr_record_of_loc_m. lia.
Qed.

Lemma round_nearest_even_bounds m l :
  0 <= m -> m <= round_nearest_even m l <= m + 1.
Proof.
  intros Hm. destruct l as [|[]]; simpl; try lia.
  destruct (Z.even m); lia.
Qed.

(** Rounding a short mantissa with a small exponent neither overflows nor
    leaves the numbers. *)
Lemma binary_round_aux_settled sx m e l :
  0 <= m -> Zdigits2 m <= 64 -> -100 <= e <= 100 ->
  settled (binary_round_aux prec emax sx m e l).
Proof.
  intros Hm Hd He. unfold binary_round_aux.
  pose proof (shr_fexp_bounds m e l Hm) as [Hm1 He1].
  destruct (shr_fexp prec emax m e l) as [mrs1 e1]. simpl in Hm1, He1.
  set (m2 := round_nearest_even (shr_m mrs1) (loc_of_shr_record mrs1)).
  pose proof (round_nearest_even_bounds (shr_m mrs1) (loc_of_shr_record mrs1)
                ltac:(lia)) as Hm2.
  fold m2 in Hm2.
  pose proof (shr_fexp_bounds m2 e1 loc_Exact ltac:(lia)) as [Hm3 He3].
  destruct (shr_fexp prec emax m2 e1 loc_Exact) as [mrs3 e3]. simpl in Hm3, He3.
  assert (Zdigits2 m2 <= Zdigits2 m + 1).
  { etransitivity; [apply (Zdigits2_mono m2 (shr_m mrs1 + 1)); lia|].
    etransitivity; [apply Zdigits2_succ; lia|].
    pose proof (Zdigits2_mono (shr_m mrs1) m ltac:(lia)). lia. }
  assert (e3 <= 971).
  { subst e3 e1. unfold fexp, emin, prec, emax in *. lia. }
  destruct (shr_m mrs3) as [|p|p]; simpl; try lia.
  replace (e3 <=? emax - prec) with true; [exact I|].
  symmetry. apply Z.leb_le. unfold emax, prec. lia.
Qed.

Lemma digits2_pos_iter_xO k :
  forall m, Zpos (digits2_pos (Pos.iter xO m k)) = Zpos (digits2_pos m) + Zpos k.
Proof.
  induction k using Pos.peano_ind; intros m.
  - simpl. lia.
  - rewrite Pos.iter_succ. simpl. rewrite Pos2Z.inj_succ, IHk. lia.
Qed.

Lemma binary_round_settled sx m :
  Zpos (digits2_pos m) <= 64 -> settled (binary_round prec emax sx m 0).
Proof.
  intros Hd. unfold binary_round, shl_align.
  destruct (fexp prec emax (Z.pos (digits2_pos m) + 0) - 0) as [|d|d] eqn:Hf.
  - apply binary_round_aux_settled; simpl; lia.
  - apply binary_round_aux_settled; simpl; lia.
  - pose proof (Pos2Z.is_pos (digits2_pos m)).
    apply binary_round_aux_settled; try lia.
    + simpl. rewrite digits2_pos_iter_xO. unfold fexp, emin, prec, emax in *. lia.
    + unfold fexp, emin, prec, emax in *. lia.
Qed.

Lemma digits2_pos_le_64 m : Zpos m <= 2 ^ 63 -> Zpos (digits2_pos m) <= 64.
Proof.
  intros Hm. change (Zdigits2 (Zpos m) <= 64). rewrite Zdigits2_log2 by lia.
  assert (H : Z.log2 (Zpos m) <= Z.log2 (2 ^ 63)) by (apply Z.log2_le_mono; lia).
  rewrite Z.log2_pow2 in H by lia. lia.
Qed.

(** The conversion of an [int] to [float64] is a number. *)
Lemma float64_of_int_settled n : fits_int n = true -> settled (float64_of_int n).
Proof.
  unfold fits_int, min_int, max_int. intros H.
  apply andb_true_iff in H as [H1 H2]. apply Z.leb_le in H1, H2.
  unfold float64_of_int, binary_normalize. destruct n as [|m|m].
  - exact I.
  - apply binary_round_settled, digits2_pos_le_64. lia.
  - apply binary_round_settled, digits2_pos_le_64. lia.
Qed.

(** *** Rounding *)

Lemma shr_1_digits mrs :
  0 <= shr_m mrs ->
  Zdigits2 (shr_m (shr_1 mrs)) = Z.max 0 (Zdigits2 (shr_m mrs) - 1).
Proof.
  destruct mrs as [m r t]. simpl. intros Hm.
  destruct m as [|[p|p|]|p]; simpl; lia.
Qed.

Lemma iter_shr_1_digits n :
  forall mrs, 0 <= shr_m mrs ->
    Zdigits2 (shr_m (SpecFloat.iter_pos shr_1 n mrs))
    = Z.max 0 (Zdigits2 (shr_m mrs) - Zpos n).
Proof.
  induction n as [n IH|n IH|]; intros mrs Hm; simpl SpecFloat.iter_pos.
  - pose proof (shr_1_m mrs Hm) as H1.
    pose proof (iter_shr_1_m n (shr_1 mrs) ltac:(lia)) as H2.
    rewrite IH by lia. rewrite IH by lia. rewrite shr_1_digits by lia. lia.
  - pose proof (iter_shr_1_m n mrs Hm) as H2.
    rewrite IH by lia. rewrite IH by lia. lia.
  - now apply shr_1_digits.
Qed.

Lemma shr_fexp_digits m e l :
  0 <= m ->
  let '(mrs, e') := shr_fexp prec emax m e l in
  Zdigits2 (shr_m mrs) <= Z.max 0 (Zdigits2 m + e - e')
  /\ (Zdigits2 m + e - prec <= e').
Proof.
  intros Hm. unfold shr_fexp, shr.
  destruct (fexp prec emax (Zdigits2 m + e) - e) as [|n|n] eqn:Hn.
  - rewrite shr_record_of_loc_m. unfold fexp in Hn. lia.
  - rewrite iter_shr_1_digits by (rewrite shr_record_of_loc_m; lia).
    rewrite shr_record_of_loc_m. unfold fexp in Hn. lia.
  - rewrite shr_record_of_loc_m. unfold fexp in Hn. lia.
Qed.

(** The mantissa of a rounded number has at most 53 bits. *)
Lemma binary_round_aux_digits sx m e l sy my ey :
  0 <= m ->
  binary_round_aux prec emax sx m e l = S754_finite sy my ey ->
  Zpos (digits2_pos my) <= prec.
Proof.
  intros Hm. unfold binary_round_aux.
  pose proof (shr_fexp_bounds m e l Hm) as [Hm1 _].
  pose proof (shr_fexp_digits m e l Hm) as Hd1.
  destruct (shr_fexp prec emax m e l) as [mrs1 e1]. simpl in Hm1.
  set (m2 := round_nearest_even (shr_m mrs1) (loc_of_shr_record mrs1)).
  pose proof (round_nearest_even_bounds (shr_m mrs1) (loc_of_shr_record mrs1)
                ltac:(lia)) as Hm2.
  fold m2 in Hm2.
  pose proof (shr_fexp_bounds m2 e1 loc_Exact ltac:(lia)) as [Hm3 _].
  pose proof (shr_fexp_digits m2 e1 loc_Exact ltac:(lia)) as Hd3.
  destruct (shr_fexp prec emax m2 e1 loc_Exact) as [mrs3 e3]. simpl in Hm3.
  destruct (shr_m mrs3) as [|p|p] eqn:Hp; try discriminate.
  destruct (e3 <=? emax - prec); try discriminate.
  intros H. injection H as <- <- <-.
  simpl in Hd3. unfold prec in *. lia.
Qed.

Lemma fmul_digits x y sz mz ez :
  fmul x y = S754_finite sz mz ez -> Zpos (digits2_pos mz) <= prec.
Proof.
  unfold fmul, SFmul. destruct x, y; try discriminate.
  apply binary_round_aux_digits. lia.
Qed.

(** [ceilZ v e] is the mathematical ceiling of [v * 2^e]. *)
Lemma ceilZ_up v e : 0 <= e -> ceilZ v e = v * 2 ^ e.
Proof.
  intros He. unfold ceilZ. rewrite Z.shiftl_mul_pow2 by lia. lia.
Qed.

Lemma ceilZ_down v e :
  e < 0 ->
  (ceilZ v e - 1) * 2 ^ (- e) < v <= ceilZ v e * 2 ^ (- e).
Proof.
  intros He. unfold ceilZ.
  rewrite Z.shiftl_div_pow2 by lia.
  assert (Hp : 0 < 2 ^ (- e)) by (apply Z.pow_pos_nonneg; lia).
  pose proof (Z.div_mod (- v) (2 ^ (- e)) ltac:(lia)) as Hdm.
  pose proof (Z.mod_pos_bound (- v) (2 ^ (- e)) Hp) as Hb.
  nia.
Qed.

Lemma Zpos_iter_xO k : forall m, Zpos (Pos.iter xO m k) = Zpos m * 2 ^ Zpos k.
Proof.
  induction k using Pos.peano_ind; intros m.
  - simpl. lia.
  - rewrite Pos.iter_succ, Pos2Z.inj_succ, Z.pow_succ_r by lia.
    rewrite Pos2Z.inj_xO, IHk. lia.
Qed.

Lemma iter_pos_nat {A} (f : A -> A) n :
  forall x, SpecFloat.iter_pos f n x = Nat.iter (Pos.to_nat n) f x.
Proof.
  induction n as [n IH|n IH|]; intros x; simpl SpecFloat.iter_pos.
  - rewrite !IH, Pos2Nat.inj_xI.
    replace (S (2 * Pos.to_nat n)) with (S (Pos.to_nat n + Pos.to_nat n)) by lia.
    now rewrite Nat.iter_succ_r, Nat.iter_add.
  - rewrite !IH, Pos2Nat.inj_xO.
    replace (2 * Pos.to_nat n)%nat with (Pos.to_nat n + Pos.to_nat n)%nat by lia.
    now rewrite Nat.iter_add.
  - reflexivity.
Qed.

Lemma shr_1_exact b : 0 < b -> shr_1 (exact_record (2 * b)) = exact_record b.
Proof. destruct b; try lia. intros _. reflexivity. Qed.

Lemma nat_iter_shr_exact j : forall b,
  0 < b -> Nat.iter j shr_1 (exact_record (b * 2 ^ Z.of_nat j)) = exact_record b.
Proof.
  induction j as [|j IH]; intros b Hb.
  - simpl. now rewrite Z.mul_1_r.
  - rewrite Nat2Z.inj_succ, Z.pow_succ_r by lia. simpl.
    replace (b * (2 * 2 ^ Z.of_nat j)) with ((2 * b) * 2 ^ Z.of_nat j) by lia.
    rewrite IH by lia. now apply shr_1_exact.
Qed.

Lemma iter_shr_exact n b :
  0 < b -> SpecFloat.iter_pos shr_1 n (exact_record (b * 2 ^ Zpos n)) = exact_record b.
Proof.
  intros Hb. rewrite iter_pos_nat.
  rewrite <- (positive_nat_Z n). now apply nat_iter_shr_exact.
Qed.

Lemma Zdigits2_mul_pow2 a k :
  0 < a -> 0 <= k -> Zdigits2 (a * 2 ^ k) = Zdigits2 a + k.
Proof.
  intros Ha Hk.
  assert (0 < 2 ^ k) by (apply Z.pow_pos_nonneg; lia).
  rewrite !Zdigits2_log2 by nia. rewrite Z.log2_mul_pow2 by lia. lia.
Qed.

Lemma Zdigits2_lt_pow2 a n : 0 < a -> Zdigits2 a <= n -> a < 2 ^ n.
Proof.
  intros Ha Hd. rewrite Zdigits2_log2 in Hd by lia.
  apply Z.log2_lt_pow2; lia.
Qed.

Lemma Zdigits2_le_of_le_pow2 a n : 0 < a <= 2 ^ n -> 0 <= n -> Zdigits2 a <= n + 1.
Proof.
  intros Ha Hn. rewrite Zdigits2_log2 by lia.
  assert (H : Z.log2 a <= Z.log2 (2 ^ n)) by (apply Z.log2_le_mono; lia).
  rewrite Z.log2_pow2 in H by lia. lia.
Qed.

(** Once the first shift has left a 53-bit mantissa and nothing behind it,
    rounding changes nothing. *)
Lemma binary_round_aux_after_shift sx m e b e1 :
  shr_fexp prec emax m e loc_Exact = (exact_record (Zpos b), e1) ->
  Zpos (digits2_pos b) = prec -> emin prec emax <= e1 <= emax - prec ->
  binary_round_aux prec emax sx m e loc_Exact = S754_finite sx b e1.
Proof.
  intros Hshift Hb He. unfold binary_round_aux. rewrite Hshift. simpl.
  unfold shr_fexp. simpl Zdigits2. rewrite Hb.
  replace (fexp prec emax (prec + e1) - e1) with 0 by (unfold fexp; lia).
  simpl. destruct (Z.leb_spec e1 (emax - prec)); [reflexivity | lia].
Qed.

(** An integer of at most 64 bits that is a 53-bit number times a power of
    two converts to [float64] without loss. *)
Lemma binary_round_exact sx mz a k :
  0 <= k -> Zpos mz = Zpos a * 2 ^ k ->
  Zpos (digits2_pos a) <= prec -> Zpos (digits2_pos mz) <= 64 ->
  truncZ (binary_round prec emax sx mz 0) = Some (cond_Zopp sx (Zpos mz)).
Proof.
  intros Hk Hmz Ha Hd.
  assert (Hdig : Zpos (digits2_pos mz) = Zpos (digits2_pos a) + k).
  { change (Zdigits2 (Zpos mz) = Zdigits2 (Zpos a) + k).
    rewrite Hmz. apply Zdigits2_mul_pow2; lia. }
  pose proof (Pos2Z.is_pos (digits2_pos a)) as Hapos.
  unfold binary_round, shl_align.
  replace (fexp prec emax (Z.pos (digits2_pos mz) + 0) - 0)
    with (Zpos (digits2_pos mz) - prec)
    by (unfold fexp, emin, prec, emax in *; lia).
  destruct (Zpos (digits2_pos mz) - prec) as [|n|n] eqn:Hn.
  - (* exactly 53 bits *)
    rewrite (binary_round_aux_after_shift sx (Zpos mz) 0 mz 0).
    + simpl. rewrite Z.shiftl_0_r. reflexivity.
    + unfold shr_fexp. simpl Zdigits2.
      replace (fexp prec emax (Z.pos (digits2_pos mz) + 0) - 0) with 0
        by (unfold fexp, emin, prec, emax in *; lia).
      reflexivity.
    + lia.
    + unfold emin, prec, emax. lia.
  - (* more than 53 bits: the low bits are zeros *)
    assert (Hle : Zpos n <= k) by lia.
    assert (Hb : exists b, Zpos b = Zpos a * 2 ^ (k - Zpos n)).
    { assert (0 < Zpos a * 2 ^ (k - Zpos n)).
      { apply Z.mul_pos_pos; [lia | apply Z.pow_pos_nonneg; lia]. }
      destruct (Zpos a * 2 ^ (k - Zpos n)) as [|b|b] eqn:E; try lia. now exists b. }
    destruct Hb as [b Hb].
    assert (Hsplit : Zpos mz = Zpos b * 2 ^ Zpos n).
    { rewrite Hmz, Hb, <- Z.mul_assoc, <- Z.pow_add_r by lia. f_equal. f_equal. lia. }
    rewrite (binary_round_aux_after_shift sx (Zpos mz) 0 b (Zpos n)).
    + simpl truncZ. rewrite Z.shiftl_mul_pow2 by lia. now rewrite Hsplit.
    + unfold shr_fexp. simpl Zdigits2.
      replace (fexp prec emax (Z.pos (digits2_pos mz) + 0) - 0) with (Zpos n)
        by (unfold fexp, emin, prec, emax in *; lia).
      unfold shr. f_equal.
      change (shr_record_of_loc (Zpos mz) loc_Exact) with (exact_record (Zpos mz)).
      rewrite Hsplit. apply iter_shr_exact. lia.
    + change (Zdigits2 (Zpos b) = prec). rewrite Hb.
      rewrite Zdigits2_mul_pow2 by lia. simpl Zdigits2. lia.
    + unfold emin, prec, emax in *. lia.
  - (* fewer than 53 bits: the mantissa is padded *)
    rewrite (binary_round_aux_after_shift sx _ _ (Pos.iter xO mz n)
               (fexp prec emax (Z.pos (digits2_pos mz) + 0))).
    + simpl truncZ. rewrite Zpos_iter_xO.
      replace (fexp prec emax (Z.pos (digits2_pos mz) + 0)) with (- Zpos n)
        by (unfold fexp, emin, prec, emax in *; lia).
      rewrite Z.shiftl_div_pow2 by lia. rewrite Z.opp_involutive.
      rewrite Z.div_mul; [reflexivity|].
      apply Z.pow_nonzero; lia.
    + unfold shr_fexp. simpl Zdigits2. rewrite digits2_pos_iter_xO.
      match goal with |- shr _ _ ?x = _ => replace x with 0
        by (unfold fexp, emin, prec, emax in *; lia) end.
      reflexivity.
    + rewrite digits2_pos_iter_xO. lia.
    + unfold fexp, emin, prec, emax in *. lia.
Qed.

Lemma truncZ_normalize_exact sx z a k :
  0 <= k -> Z.abs z = Zpos a * 2 ^ k ->
  Zpos (digits2_pos a) <= prec -> Z.abs z <= 2 ^ 63 ->
  truncZ (binary_normalize prec emax z 0 sx) = Some z.
Proof.
  intros Hk Hz Ha Hb. destruct z as [|mz|mz]; simpl in Hz, Hb.
  - assert (0 < 2 ^ k) by (apply Z.pow_pos_nonneg; lia). nia.
  - unfold binary_normalize.
    rewrite (binary_round_exact false mz a k); auto using digits2_pos_le_64.
  - unfold binary_normalize.
    rewrite (binary_round_exact true mz a k); auto using digits2_pos_le_64.
Qed.

(** [int(math.Ceil(x))] is the mathematical ceiling of a finite [x] whenever
    that ceiling is an [int]. *)
Lemma int_of_Ceil undef sx m e :
  Zpos (digits2_pos m) <= prec ->
  fits_int (ceilZ (cond_Zopp sx (Zpos m)) e) = true ->
  int_of_float64 undef (Ceil (S754_finite sx m e))
  = ceilZ (cond_Zopp sx (Zpos m)) e.
Proof.
  intros Hm Hfit.
  assert (Htrunc : truncZ (Ceil (S754_finite sx m e))
                   = Some (ceilZ (cond_Zopp sx (Zpos m)) e)).
  { unfold Ceil. set (v := cond_Zopp sx (Zpos m)) in *.
    assert (Hv : Z.abs v = Zpos m) by (subst v; destruct sx; simpl; lia).
    assert (Hint : Z.abs (ceilZ v e) <= 2 ^ 63).
    { unfold fits_int, min_int, max_int in Hfit.
      apply andb_true_iff in Hfit as [H1 H2]. apply Z.leb_le in H1, H2. lia. }
    destruct (Z.eq_dec (ceilZ v e) 0) as [Hz | Hnz]; [rewrite Hz; reflexivity|].
    destruct (Z.le_gt_cases 0 e) as [He | He].
    - (* the number is an integer already *)
      apply (truncZ_normalize_exact sx _ m e); auto.
      rewrite ceilZ_up by lia. rewrite Z.abs_mul, Hv, Z.abs_pow. reflexivity.
    - (* a fraction: its ceiling has at most 53 bits *)
      pose proof (ceilZ_down v e He) as Hc.
      assert (Hj : 2 <= 2 ^ (- e)).
      { change 2 with (2 ^ 1) at 1. apply Z.pow_le_mono_r; lia. }
      assert (Hlt : Zpos m < 2 ^ prec) by (apply Zdigits2_lt_pow2; [lia | exact Hm]).
      unfold prec in Hlt.
      assert (Hsmall : Z.abs (ceilZ v e) <= 2 ^ 52) by nia.
      destruct (Z.abs (ceilZ v e)) as [|a|a] eqn:Ha; try lia.
      apply (truncZ_normalize_exact sx _ a 0); try lia.
      change (Zdigits2 (Zpos a) <= 53).
      apply (Zdigits2_le_of_le_pow2 (Zpos a) 52); lia. }
  unfold int_of_float64. now rewrite Htrunc, Hfit.
Qed.

(** ** The target count *)

Lemma targetCount_period undef s p :
  Period s = Some p ->
  targetCount undef s
  = inr (int_of_float64 undef (Ceil (fmul (float64_of_int p) (Throughput s)))).
Proof. unfold targetCount. intros ->. reflexivity. Qed.


(** At rate 0 the target count of a period is 0. *)
Lemma targetCount_period_zero_rate undef s p :
  Period s = Some p -> fits_int p = true -> is_zero (Throughput s) ->
  targetCount undef s = inr 0.
Proof.
  intros Hp Hfit Hz. rewrite (targetCount_period _ _ _ Hp).
  pose proof (float64_of_int_settled p Hfit) as Hs.
  destruct (Throughput s) as [sz| | |]; try contradiction.
  destruct (float64_of_int p); try contradiction; reflexivity.
Qed.

Lemma targetCount_is_ceiling undef s p sx m e :
  Period s = Some p ->
  fmul (float64_of_int p) (Throughput s) = S754_finite sx m e ->
  fits_int (ceilZ (cond_Zopp sx (Zpos m)) e) = true ->
  targetCount undef s = inr (ceilZ (cond_Zopp sx (Zpos m)) e).
Proof.
  intros Hp Hmul Hfit. rewrite (targetCount_period _ _ _ Hp), Hmul.
  f_equal. apply int_of_Ceil; [|exact Hfit].
  exact (fmul_digits _ _ _ _ _ Hmul).
Qed.

(** Rounding in the product shows in the target count: 10 s at 0.1/s give 1
    (the exact product of the two [float64] lies above 1), and 100 s at
    0.07/s give 8 (the rounded product lies above 7). *)
Lemma targetCount_rounded_products undef :
  targetCount undef (ping (Some 10) None float_tenth) = inr 1
  /\ targetCount undef (ping (Some 100) None float_7_hundredths) = inr 8.
Proof. split; reflexivity. Qed.




(** ** One work unit *)

Lemma run_validates_fail code passed v rest :
  Forall (fun r => rule_fails r code = false) passed ->
  rule_fails v code = true ->
  run_validates (passed ++ v :: rest) code = (passed ++ [v], Some v).
Proof.
  induction 1 as [|r passed Hr _ IH]; intros Hv; simpl.
  - now rewrite Hv.
  - rewrite Hr, (IH Hv). reflexivity.
Qed.

Lemma run_validates_pass code vs :
  Forall (fun r => rule_fails r code = false) vs ->
  run_validates vs code = (vs, None).
Proof.
  induction 1 as [|r vs Hr _ IH]; simpl.
  - reflexivity.
  - now rewrite Hr, IH.
Qed.

(** Every rule list splits at its first failing rule, or passes as a whole. *)
Lemma first_failing code vs :
  Forall (fun r => rule_fails r code = false) vs
  \/ exists passed v rest,
       vs = passed ++ v :: rest
       /\ Forall (fun r => rule_fails r code = false) passed
       /\ rule_fails v code = true.
Proof.
  induction vs as [|r vs IH].
  - left. constructor.
  - destruct (rule_fails r code) eqn:Hr.
    + right. exists [], r, vs. repeat split; [constructor | assumption].
    + destruct IH as [IH | (passed & v & rest & -> & Hp & Hv)].
      * left. now constructor.
      * right. exists (r :: passed), v, rest. repeat split; [now constructor | assumption].
Qed.

(** C5: a request that cannot be built or executed is reported as a request
    failure with no rule evaluated; on a response the rules are evaluated in
    declared order up to and including the first failing one, which gives a
    validation failure; when every rule passes, or none is declared, the
    outcome is success. *)
Theorem C5_classification :
  forall s,
    (outcome s NewRequestErr = [ResultRequestFail]
     /\ evaluated (worker_unit s NewRequestErr) = [])
    /\ (outcome s DoErr = [ResultRequestFail]
        /\ evaluated (worker_unit s DoErr) = [])
    /\ (forall code passed v rest,
          Validates s = passed ++ v :: rest ->
          Forall (fun r => rule_fails r code = false) passed ->
          rule_fails v code = true ->
          outcome s (Response code) = [ResultValidationFail]
          /\ evaluated (worker_unit s (Response code)) = passed ++ [v])
    /\ (forall code,
          Forall (fun r => rule_fails r code = false) (Validates s) ->
          outcome s (Response code) = [ResultOK]
          /\ evaluated (worker_unit s (Response code)) = Validates s).
Proof.
  intros s. split; [|split; [|split]].
  - split; reflexivity.
  - split; reflexivity.
  - intros code passed v rest Hs Hp Hv.
    unfold outcome, worker_unit. rewrite Hs, (run_validates_fail _ _ _ _ Hp Hv).
    split; reflexivity.
  - intros code Hp.
    unfold outcome, worker_unit. rewrite (run_validates_pass _ _ Hp).
    split; reflexivity.
Qed.

Lemma C5_classification_witness :
  let s := mkScenario "ping" "https://google.com" None (Some 1) float_one
                      [any_status; status_200; status_204] in
  (outcome s (Response 404) = [ResultValidationFail]
   /\ evaluated (worker_unit s (Response 404)) = [any_status; status_200])
  /\ (outcome s (Response 200) = [ResultValidationFail]
      /\ evaluated (worker_unit s (Response 200)) = [any_status; status_200; status_204])
  /\ (outcome (ping None (Some 1) float_one) (Response 200) = [ResultOK]
      /\ evaluated (worker_unit (ping None (Some 1) float_one) (Response 200)) = [status_200]).
Proof.
  intros s.
  destruct (C5_classification s) as (_ & _ & Hfail & _).
  destruct (C5_classification (ping None (Some 1) float_one)) as (_ & _ & _ & Hok).
  split; [|split].
  - apply (Hfail 404 [any_status] status_200 [status_204]).
    + reflexivity.
    + repeat constructor.
    + reflexivity.
  - apply (Hfail 200 [any_status; status_200] status_204 []).
    + reflexivity.
    + repeat constructor.
    + reflexivity.
  - apply Hok. repeat constructor.
Defined.

(** ** Schedules and invariants *)

Lemma forallb_lookup (P : WorkerPC -> bool) (l : list WorkerPC) w pc :
  forallb P l = true -> l !! w = Some pc -> P pc = true.
Proof.
  revert w. induction l as [|x l IH]; intros [|w] Hall Hw; simpl in *;
    try discriminate; apply andb_true_iff in Hall as [Hx Hl].
  - now injection Hw as <-.
  - now apply (IH w).
Qed.

Lemma forallb_insert (P : WorkerPC -> bool) (l : list WorkerPC) w pc :
  forallb P l = true -> P pc = true -> forallb P (<[w := pc]> l) = true.
Proof.
  revert w. induction l as [|x l IH]; intros [|w] Hall Hpc; simpl in *;
    try reflexivity; apply andb_true_iff in Hall as [Hx Hl];
    apply andb_true_iff; split; auto.
Qed.

Lemma forallb_replicate (P : WorkerPC -> bool) n pc :
  P pc = true -> forallb P (replicate n pc) = true.
Proof. intros Hpc. induction n; simpl; [reflexivity | now rewrite Hpc]. Qed.

(** A worker found at a program point that a [forallb] over the pool
    excludes. *)
Ltac worker_clash Hall :=
  match goal with
  | Hl : _ !! _ = Some _ |- _ =>
      let Hc := fresh "Hc" in
      pose proof (forallb_lookup _ _ _ _ Hall Hl) as Hc; simpl in Hc; congruence
  end.

Section Schedules.

Variable s : Scenario.
Variable httpWorkerNum : nat.
Variable count : Z.

Local Abbreviation step := (step s httpWorkerNum count).
Local Abbreviation run := (run s httpWorkerNum count).

Lemma run_app tr1 tr2 st :
  run (tr1 ++ tr2) st
  = match run tr1 st with Some st' => run tr2 st' | None => None end.
Proof.
  revert st. induction tr1 as [|e tr1 IH]; intros st; simpl.
  - reflexivity.
  - destruct (step e st); auto.
Qed.

(** A property kept by every step holds along every schedule. *)
Lemma run_invariant (P : State -> Prop) :
  (forall e st st', P st -> step e st = Some st' -> P st') ->
  forall tr st st', P st -> run tr st = Some st' -> P st'.
Proof.
  intros Hstep. induction tr as [|e tr IH]; intros st st' HP Hrun.
  - injection Hrun as <-. exact HP.
  - simpl in Hrun.
    destruct (step e st) as [st1|] eqn:He; [|discriminate].
    exact (IH st1 st' (Hstep e st st1 HP He) Hrun).
Qed.

(** A starved dispatcher stays starved. *)
Lemma starved_step e st st' :
  starved st -> step e st = Some st' -> starved st'.
Proof.
  intros (Hd & Hr & Hw) H. unfold starved.
  destruct st as [cd lim d c q ws rep ret pan enq cmp]. simpl in *.
  step_inv H; try congruence;
    destruct Hw as [[Hq Hw] | Hw]; subst; try congruence;
    try worker_clash Hw;
    repeat split; auto;
    first [ left; split; [reflexivity | now apply forallb_insert]
          | right; now apply forallb_insert
          | now left
          | now right ].
Qed.

(** From a starved state [ScenarioRun] never returns, whatever happens,
    cancellation included. *)
Lemma starved_never_returns st tr st' :
  starved st -> run tr st = Some st' -> returned st' = false.
Proof.
  intros Hst Hrun.
  assert (H : starved st') by (eapply run_invariant; eauto using starved_step).
  apply H.
Qed.


Lemma dispatch_cases i c :
  (i <= count /\ dispatch count i c = DSelect i)
  \/ (count < i /\ 0 < c /\ dispatch count i c = DDrain 0)
  \/ (count < i /\ c <= 0 /\ dispatch count i c = DReturned).
Proof.
  unfold dispatch, drain.
  destruct (Z.leb_spec i count); [left; auto|].
  destruct (Z.ltb_spec 0 c); [right; left; auto | right; right; auto].
Qed.

Lemma drain_cases i c : drain i c = DDrain i \/ drain i c = DReturned.
Proof. unfold drain. destruct (i <? c); auto. Qed.

Lemma dispatch_inv_init : dispatch_inv count (init httpWorkerNum count).
Proof.
  unfold dispatch_inv, init. simpl. split; [unfold min_int, max_int; lia|].
  intros _. destruct (dispatch_cases 1 0) as [[H ->] | [(H & H0 & ->) | (H & H0 & ->)]];
    lia.
Qed.

Lemma dispatch_inv_step e st st' :
  dispatch_inv count st -> step e st = Some st' -> dispatch_inv count st'.
Proof.
  intros [Hc Hd] H. unfold dispatch_inv.
  destruct st as [cd lim d c q ws rep ret pan enq cmp]. simpl in *.
  step_inv H; try (split; [assumption | exact Hd]).
  - (* a permit is received *)
    split; [apply wrap64_range|]. intros Hn. specialize (Hd Hn).
    rewrite incr_id by (unfold min_int, max_int in *; lia). lia.
  - (* the permit channel is closed *)
    split; [assumption|]. intros Hn. specialize (Hd Hn). lia.
  - (* cancellation *)
    split; [assumption|]. intros Hn. specialize (Hd Hn). lia.
  - (* a unit is enqueued *)
    split; [assumption|]. intros Hn. specialize (Hd Hn).
    rewrite incr_id by (unfold min_int, max_int in *; lia).
    destruct (dispatch_cases (i + 1) c) as [[H ->] | [(H & H0 & ->) | (H & H0 & ->)]];
      lia.
  - (* a completion signal is received *)
    split; [assumption|]. intros Hn. specialize (Hd Hn).
    destruct (drain_cases (incr i) c) as [-> | ->]; exact Hd.
Qed.

Lemma dispatch_inv_reachable st :
  reachable s httpWorkerNum count st -> dispatch_inv count st.
Proof.
  intros [tr Hrun].
  exact (run_invariant _ dispatch_inv_step tr _ _ dispatch_inv_init Hrun).
Qed.

(** A jammed dispatcher stays jammed. *)
Lemma jammed_step e st st' :
  jammed httpWorkerNum st -> step e st = Some st' -> jammed httpWorkerNum st'.
Proof.
  intros ([i Hd] & Hr & Hq & Hw) H. unfold jammed.
  destruct st as [cd lim d c q ws rep ret pan enq cmp]. simpl in *.
  step_inv H; try congruence; try worker_clash Hw;
    try (repeat split; eauto; fail).
  match goal with
  | Hlt : (_ <? _)%nat = true |- _ => apply Nat.ltb_lt in Hlt; lia
  end.
Qed.

Lemma jammed_never_returns st tr st' :
  jammed httpWorkerNum st -> run tr st = Some st' -> returned st' = false.
Proof.
  intros Hst Hrun.
  assert (H : jammed httpWorkerNum st') by (eapply run_invariant; eauto using jammed_step).
  apply H.
Qed.


End Schedules.

(** ** The ledger of units *)

Lemma tally_insert f ws w pc pc' :
  ws !! w = Some pc ->
  (tally f (<[w := pc']> ws) + f pc = tally f ws + f pc')%nat.
Proof.
  revert w. induction ws as [|x ws IH]; intros [|w] Hw; simpl in *; try discriminate.
  - injection Hw as ->. lia.
  - specialize (IH w Hw). lia.
Qed.

Lemma tally_replicate f n pc : f pc = 0%nat -> tally f (replicate n pc) = 0%nat.
Proof. intros Hf. induction n; simpl; [reflexivity | now rewrite Hf, IHn]. Qed.

(** What a worker becomes when the request of its unit ends. *)
Lemma resume_worker_unit u h :
  let pc := resume (effects (worker_unit u h)) (next (worker_unit u h)) in
  worker_wf pc = true /\ holding pc = 1%nat /\ owing pc = 0%nat.
Proof.
  unfold worker_unit. destruct h; simpl; auto.
  destruct (run_validates (Validates u) code) as [seen [v|]]; simpl; auto.
Qed.

Section Ledger.

Variable s : Scenario.
Variable httpWorkerNum : nat.
Variable count : Z.
Hypothesis no_wrap : count < max_int.

Lemma ledger_init : ledger (init httpWorkerNum count).
Proof.
  unfold ledger, init, total. simpl.
  rewrite !tally_replicate by reflexivity.
  rewrite forallb_replicate by reflexivity.
  destruct (dispatch_cases count 1 0) as [[H ->] | [(H & H0 & ->) | (H & H0 & ->)]];
    repeat split; auto; try lia; try discriminate.
Qed.

Ltac tally_at Hl pc' :=
  let Hh := fresh "Hh" in
  let Ho := fresh "Ho" in
  pose proof (tally_insert holding _ _ _ pc' Hl) as Hh;
  pose proof (tally_insert owing _ _ _ pc' Hl) as Ho;
  simpl in Hh, Ho.

Ltac ledger_easy :=
  repeat split; auto; try lia; try congruence;
  try (now apply forallb_insert); try (intuition congruence).

(** A report is received: the three shapes of a worker blocked on it. *)
Ltac ledger_report Hwf :=
  match goal with
  | Hl : _ !! _ = Some (WSend (SendReport ?r :: ?l) ?k) |- _ =>
      let Hpc := fresh "Hpc" in
      pose proof (forallb_lookup _ _ _ _ Hwf Hl) as Hpc; simpl in Hpc;
      destruct r, l as [|[|] [|]], k; try discriminate Hpc
  end;
  match goal with
  | Hl : _ !! _ = Some (WSend (_ :: ?l) ?k) |- _ => tally_at Hl (resume l k)
  end;
  simpl; rewrite incr_id by (unfold min_int, max_int in *; lia);
  ledger_easy.

Lemma ledger_step e st st' :
  dispatch_inv count st -> ledger st ->
  step s httpWorkerNum count e st = Some st' -> ledger st'.
Proof.
  intros [Hrange Hdisp] (Hwf & HS & HV & HR & Hunits & Hdone & Hd & Hstop & Hret) H.
  specialize (Hdisp no_wrap). unfold ledger, total in *.
  destruct st as [cd lim d c q ws [S V R] ret pan enq cmp]. simpl in *.
  step_inv H;
    try (ledger_easy; fail);
    try (destruct d; ledger_easy; fail).
  - (* a unit is enqueued *)
    rewrite length_app. simpl.
    destruct (dispatch_cases count (incr i) c) as [[H ->] | [(H & H0 & ->) | (H & H0 & ->)]];
      ledger_easy.
  - (* a completion signal is received *)
    match goal with Hl : ws !! _ = Some _ |- _ =>
      pose proof (forallb_lookup _ _ _ _ Hwf Hl) as Hpc; simpl in Hpc;
      destruct l; [|destruct k; discriminate Hpc]
    end.
    destruct Hd as [Hi Hcmp].
    rewrite incr_id by (unfold min_int, max_int in *; lia).
    unfold drain.
    destruct k;
      match goal with Hl : ws !! _ = Some (WSend _ ?k) |- _ =>
        tally_at Hl (resume [] k) end;
      simpl;
      (destruct (i + 1 <? c) eqn:Hlt;
       [apply Z.ltb_lt in Hlt | apply Z.ltb_ge in Hlt]);
      ledger_easy; right; lia.
  - (* a worker leaves on cancellation *)
    match goal with Hl : ws !! _ = Some _ |- _ => tally_at Hl WReturned end.
    destruct d; ledger_easy.
  - (* a worker takes a unit *)
    match goal with Hl : ws !! _ = Some _ |- _ => tally_at Hl (WRequest s0) end.
    simpl in Hunits. destruct d; ledger_easy.
  - (* the request of a worker ends *)
    destruct (resume_worker_unit u h) as (Hwf' & Hh' & Ho').
    match goal with Hl : ws !! _ = Some _ |- _ =>
      tally_at Hl (resume (effects (worker_unit u h)) (next (worker_unit u h))) end.
    destruct d; ledger_easy.
  - (* an outcome is reported while the dispatcher selects *)
    ledger_report Hwf.
  - (* ... while it enqueues *)
    ledger_report Hwf.
  - (* ... while it drains *)
    ledger_report Hwf.
Qed.

Lemma ledger_reachable st :
  reachable s httpWorkerNum count st -> dispatch_inv count st /\ ledger st.
Proof.
  intros [tr Hrun].
  apply (run_invariant s httpWorkerNum count
           (fun st => dispatch_inv count st /\ ledger st)) with (tr := tr)
           (st := init httpWorkerNum count); [| |exact Hrun].
  - intros e st1 st2 [Hd Hl] Hstep. split.
    + exact (dispatch_inv_step s httpWorkerNum count e st1 st2 Hd Hstep).
    + exact (ledger_step e st1 st2 Hd Hl Hstep).
  - split; [apply dispatch_inv_init | apply ledger_init].
Qed.

(** Cancelled or not, the summary never counts more than was dispatched. *)
Lemma summary_at_most_dispatched st :
  reachable s httpWorkerNum count st ->
  0 <= SuccessCount (report st)
  /\ 0 <= ValidationFailCount (report st)
  /\ 0 <= RequestFailCount (report st)
  /\ total (report st) <= Z.of_nat (enqueued st).
Proof.
  intros Hreach.
  destruct (ledger_reachable st Hreach) as [_ (_ & HS & HV & HR & Hunits & _)].
  repeat split; auto. lia.
Qed.

(** When [ScenarioRun] returns and the context was not cancelled, every unit
    dispatched is counted, none of them as a validation failure, and each
    has had its completion signal received. *)
Lemma uncancelled_summary_complete st :
  reachable s httpWorkerNum count st ->
  returned st = true -> ctx_done st = false ->
  total (report st) = Z.of_nat (enqueued st)
  /\ ValidationFailCount (report st) = 0
  /\ completions st = enqueued st
  /\ scenarioCh st = [].
Proof.
  intros Hreach Hret Hctx.
  destruct (ledger_reachable st Hreach)
    as [[_ Hdisp] (_ & HS & HV & HR & Hunits & Hdone & Hd & _ & Hr)].
  specialize (Hdisp no_wrap). rewrite (Hr Hret) in Hdisp, Hd.
  destruct Hd as [Hd | Hd]; [congruence|].
  unfold total in *.
  assert (Hq : length (scenarioCh st) = 0%nat) by lia.
  repeat split; try lia.
  now destruct (scenarioCh st).
Qed.

End Ledger.

(** ** A limiter that never emits *)

Section ZeroRate.

Variable s : Scenario.
Variable httpWorkerNum : nat.
Variable count : Z.
Hypothesis zero_rate : is_zero (Throughput s).








End ZeroRate.

(** ** The worker's signals *)

(** Every path of the worker reports exactly one outcome. *)
Lemma one_report_per_unit s h : reports_of s h = 1%nat.
Proof.
  unfold reports_of, worker_unit. destruct h; try reflexivity.
  destruct (run_validates (Validates s) code) as [seen [v|]]; reflexivity.
Qed.

(** The completion signal follows unless a validation rule failed. *)
Lemma completion_unless_validation_fail s h :
  completions_of s h
  = match outcome s h with
    | [ResultValidationFail] => 0%nat
    | _ => 1%nat
    end.
Proof.
  unfold completions_of, outcome, worker_unit. destruct h; try reflexivity.
  destruct (run_validates (Validates s) code) as [seen [v|]]; reflexivity.
Qed.

(** The worker leaves its loop exactly after a request failure. *)
Lemma return_iff_request_fail s h :
  next (worker_unit s h) = Return <-> outcome s h = [ResultRequestFail].
Proof.
  unfold outcome, worker_unit. destruct h; simpl; try (split; reflexivity).
  destruct (run_validates (Validates s) code) as [seen [v|]]; simpl;
    split; discriminate.
Qed.

(** C1: on the validation-failure path the worker reports its outcome and
    goes back to the head of its loop without a completion signal. With
    status 200 expected and 404 answered, the only unit of the run is
    reported, no completion is ever sent, and the dispatcher waits for it
    for ever: [ScenarioRun] does not return on any continuation. *)
Theorem C1_validation_failure_sends_no_completion :
  effects (worker_unit one_shot (Response 404)) = [SendReport ResultValidationFail]
  /\ reports_of one_shot (Response 404) = 1%nat
  /\ completions_of one_shot (Response 404) = 0%nat
  /\ completions_of one_shot DoErr = 1%nat
  /\ completions_of one_shot (Response 200) = 1%nat
  /\ exists st,
       run one_shot default_pool 1 answered_404 (init default_pool 1) = Some st
       /\ report st = mkReport 0 1 0
       /\ enqueued st = 1%nat
       /\ completions st = 0%nat
       /\ workers st !! 0%nat = Some WSelect
       /\ dispatcher st = DDrain 0
       /\ forall tr st',
            run one_shot default_pool 1 tr st = Some st' -> returned st' = false.
Proof.
  repeat (split; [reflexivity|]).
  eexists. split; [vm_compute; reflexivity|].
  repeat (split; [reflexivity|]).
  intros tr st'. apply starved_never_returns.
  repeat split. left. split; reflexivity.
Qed.

(** C9: after a request failure the worker returns although the context was
    never cancelled. When the connection for the only unit fails, worker 0
    reports the failure, signals completion and is gone. With a pool of one
    worker the second unit of a run then stays in the queue and
    [ScenarioRun] never returns. *)
Theorem C9_request_failure_ends_worker :
  next (worker_unit one_shot NewRequestErr) = Return
  /\ next (worker_unit one_shot DoErr) = Return
  /\ next (worker_unit one_shot (Response 200)) = ContinueL
  /\ next (worker_unit one_shot (Response 404)) = ContinueL
  /\ (exists st,
        run one_shot default_pool 1 connection_refused (init default_pool 1) = Some st
        /\ ctx_done st = false
        /\ report st = mkReport 0 0 1
        /\ workers st !! 0%nat = Some WReturned)
  /\ (exists st,
        run two_shot 1 2 only_worker_lost (init 1 2) = Some st
        /\ ctx_done st = false
        /\ workers st = [WReturned]
        /\ scenarioCh st = [two_shot]
        /\ dispatcher st = DDrain 1
        /\ forall tr st', run two_shot 1 2 tr st = Some st' -> returned st' = false).
Proof.
  repeat (split; [reflexivity|]).
  split.
  - eexists. split; [vm_compute; reflexivity|]. repeat split.
  - eexists. split; [vm_compute; reflexivity|].
    repeat (split; [reflexivity|]).
    intros tr st'. apply starved_never_returns.
    repeat split. right. reflexivity.
Qed.

(** C2: on cancellation the dispatcher returns from its [select] and closes
    the result channel without receiving any completion signal. Interrupted
    while one unit is in flight, it closes [reportCh] with one unit
    dispatched and no completion observed, and the worker's later send
    panics. Interrupted between the permit and the enqueue of the last unit,
    it reaches the drain loop when every worker is gone and waits for ever. *)
Theorem C2_cancellation_skips_the_drain :
  (exists st st',
     run two_shot default_pool 2 interrupted_in_flight (init default_pool 2) = Some st
     /\ dispatcher st = DReturned
     /\ enqueued st = 1%nat
     /\ disp_c st = 1
     /\ completions st = 0%nat
     /\ workers st !! 0%nat = Some (WRequest two_shot)
     /\ run two_shot default_pool 2 [WorkerHttp 0 (Response 200); WorkerReport 0] st
        = Some st'
     /\ panicked st' = true)
  /\ (exists st,
        run one_shot default_pool 1 interrupted_before_enqueue (init default_pool 1)
        = Some st
        /\ ctx_done st = true
        /\ dispatcher st = DDrain 0
        /\ enqueued st = 1%nat
        /\ forall tr st',
             run one_shot default_pool 1 tr st = Some st' -> returned st' = false).
Proof.
  split.
  - eexists. eexists. split; [vm_compute; reflexivity|].
    repeat (split; [reflexivity|]).
    reflexivity.
  - eexists. split; [vm_compute; reflexivity|].
    repeat (split; [reflexivity|]).
    intros tr st'. apply starved_never_returns.
    repeat split. right. vm_compute. reflexivity.
Qed.

(** C3: interrupted while the first of two units is in flight,
    [ScenarioRun] returns the all-zero summary although one unit was
    dispatched. *)
Theorem C3_cancelled_summary_misses_a_unit :
  exists st0 st,
    ScenarioRun amd64_unrepresentable 100 two_shot = inr st0
    /\ run two_shot default_pool 2 (interrupted_in_flight ++ [AggregatorReturn]) st0
       = Some st
    /\ returned st = true
    /\ enqueued st = 1%nat
    /\ report st = no_report
    /\ SuccessCount (report st) + ValidationFailCount (report st)
       + RequestFailCount (report st) <> Z.of_nat (enqueued st).
Proof.
  eexists. eexists. split; [reflexivity|].
  split; [vm_compute; reflexivity|].
  repeat (split; [reflexivity|]).
  simpl. lia.
Qed.

(** ** Workers blocked on [done] *)

(** A worker that has reported a success blocks on the unbuffered [done]
    until the dispatcher drains, and the dispatcher drains only after the
    last enqueue. With 100 workers and a target of 201 successful requests,
    100 units are served, 100 more fill the queue, and the dispatcher blocks
    on the next enqueue for ever, cancelled or not. *)
Lemma busy_pool_jams_the_dispatcher :
  exists st,
    run (ping None (Some 201) float_one) default_pool 201 pool_and_queue_full
        (init default_pool 201) = Some st
    /\ ctx_done st = false
    /\ enqueued st = 200%nat
    /\ report st = mkReport 100 0 0
    /\ forall tr st',
         run (ping None (Some 201) float_one) default_pool 201 tr st = Some st' ->
         returned st' = false.
Proof.
  eexists. split; [vm_compute; reflexivity|].
  repeat (split; [reflexivity|]).
  intros tr st'. apply jammed_never_returns.
  split; [eexists; reflexivity|].
  split; [reflexivity|]. split; vm_compute; reflexivity.
Qed.

(** ** Configurations that are not checked *)




(** ** The bound on dispatch *)

(** C7, as stated, fails for a negative target count: with [count: -1]
    nothing is dispatched, and 0 units exceed the target of -1. *)
Lemma C7_counterexample :
  exists st0,
    ScenarioRun amd64_unrepresentable 100 (ping None (Some (-1)) float_one) = inr st0
    /\ targetCount amd64_unrepresentable (ping None (Some (-1)) float_one) = inr (-1)
    /\ reachable (ping None (Some (-1)) float_one) default_pool (-1) st0
    /\ ~ Z.of_nat (enqueued st0) <= -1
    /\ ~ disp_c st0 <= -1.
Proof.
  eexists. split; [reflexivity|]. split; [reflexivity|].
  split; [exists []; reflexivity|].
  split; simpl; lia.
Qed.

(** With the largest [int] as target the test [i <= count] never fails, the
    counter [i] wraps around, and the dispatch goes on: after 2^63 units that
    failed validation more units are enqueued than the target counts. *)
Lemma rejected_unit_between_units st :
  between_units st ->
  exists st',
    run endless 1 max_int rejected_unit st = Some st'
    /\ between_units st'
    /\ enqueued st' = S (enqueued st).
Proof.
  intros (Hctx & Hlim & [i Hd] & Hq & Hw & Hpan).
  destruct st as [cd lim d c q ws rep ret pan enq cmp].
  simpl in Hctx, Hlim, Hd, Hq, Hw, Hpan. subst.
  destruct ws as [|pc ws]; [discriminate|]. injection Hw as ->.
  assert (Hnext : dispatch max_int (incr i) (incr c) = DSelect (incr i)).
  { unfold dispatch. destruct (Z.leb_spec (incr i) max_int) as [_ | Hgt]; [reflexivity|].
    pose proof (wrap64_range (i + 1)). unfold incr in Hgt. lia. }
  exists (mkState false LWait (DSelect (incr i)) (incr c) [] (WSelect :: ws)
                  (count_result ResultValidationFail rep) ret false (S enq) cmp).
  split; [|split].
  - assert (Hqueued :
      run endless 1 max_int [LimiterPermit; DispatcherPermit; DispatcherEnqueue]
          (mkState false LWait (DSelect i) c [] (WSelect :: ws) rep ret false enq cmp)
      = Some (mkState false LWait (dispatch max_int (incr i) (incr c)) (incr c)
                      [endless] (WSelect :: ws) rep ret false (S enq) cmp))
      by reflexivity.
    rewrite Hnext in Hqueued.
    assert (Hsplit : forall st0,
      run endless 1 max_int rejected_unit st0
      = match run endless 1 max_int
                  [LimiterPermit; DispatcherPermit; DispatcherEnqueue] st0 with
        | Some st1 =>
            run endless 1 max_int
                [WorkerTake 0; WorkerHttp 0 (Response 404); WorkerReport 0] st1
        | None => None
        end).
    { intros st0.
      exact (run_app endless 1 max_int
               [LimiterPermit; DispatcherPermit; DispatcherEnqueue]
               [WorkerTake 0; WorkerHttp 0 (Response 404); WorkerReport 0] st0). }
    rewrite Hsplit, Hqueued. reflexivity.
  - unfold between_units; simpl. repeat split; eauto.
  - reflexivity.
Qed.

Lemma any_number_enqueued (k : nat) :
  exists st,
    reachable endless 1 max_int st /\ between_units st /\ enqueued st = k.
Proof.
  induction k as [|k (st & [tr Hrun] & Hshape & Henq)].
  - exists (init 1 max_int). split; [exists []; reflexivity|].
    split; [|reflexivity].
    unfold between_units. repeat split; vm_compute; eauto.
  - destruct (rejected_unit_between_units st Hshape) as (st' & Hcycle & Hshape' & Henq').
    exists st'. split; [|split; [assumption | congruence]].
    exists (tr ++ rejected_unit). now rewrite run_app, Hrun.
Qed.

Lemma enqueued_exceeds_largest_target :
  targetCount amd64_unrepresentable endless = inr max_int
  /\ exists st,
       reachable endless 1 max_int st /\ max_int < Z.of_nat (enqueued st).
Proof.
  split; [reflexivity|].
  destruct (any_number_enqueued (Z.to_nat (2 ^ 63))) as (st & Hreach & _ & Henq).
  exists st. split; [assumption|].
  rewrite Henq, Z2Nat.id by lia. unfold max_int. lia.
Qed.

(** C7, amended: in every state of every schedule the dispatcher's counter
    is at most the target count, or 0 when the target is negative; and when
    the target is below the largest [int], so that the loop counter cannot
    wrap around, so is the number of units enqueued. *)
Theorem C7_dispatch_bounded :
  forall undef httpWorkerNum s N st0 st,
    ScenarioRun undef httpWorkerNum s = inr st0 ->
    targetCount undef s = inr N ->
    reachable_from s (Z.to_nat httpWorkerNum) N st0 st ->
    disp_c st <= Z.max 0 N
    /\ (N < max_int ->
        Z.of_nat (enqueued st) <= disp_c st
        /\ Z.of_nat (enqueued st) <= Z.max 0 N).
Proof.
  intros undef W s N st0 st Hrun HN Hreach.
  unfold ScenarioRun in Hrun. rewrite HN in Hrun.
  destruct (W <? 0); [discriminate|]. injection Hrun as <-.
  destruct (dispatch_inv_reachable _ _ _ _ Hreach) as [Hc Hd].
  split.
  - destruct (Z.lt_ge_cases N max_int) as [Hlt | Hge]; [|lia].
    specialize (Hd Hlt). destruct (dispatcher st); lia.
  - intros Hlt. specialize (Hd Hlt). destruct (dispatcher st); lia.
Qed.

Lemma C7_dispatch_bounded_witness :
  exists st,
    run two_shot default_pool 2 both_units_enqueued (init default_pool 2) = Some st
    /\ enqueued st = 2%nat
    /\ disp_c st <= Z.max 0 2
    /\ (2 < max_int ->
        Z.of_nat (enqueued st) <= disp_c st /\ Z.of_nat (enqueued st) <= Z.max 0 2).
Proof.
  eexists. split; [vm_compute; reflexivity|]. split; [reflexivity|].
  apply (C7_dispatch_bounded amd64_unrepresentable 100 two_shot 2 (init default_pool 2)).
  - reflexivity.
  - reflexivity.
  - exists both_units_enqueued. vm_compute. reflexivity.
Defined.

(** ** Throughput 0 *)






(** * Further properties *)

(** ** The pool, the queue and the lead of the dispatch *)

Lemma tally_le_length ws :
  (tally holding ws + tally owing ws <= length ws)%nat.
Proof.
  induction ws as [|pc ws IH]; simpl; [lia|].
  assert (holding pc + owing pc <= 1)%nat.
  { destruct pc as [| |[|[|] ?] ?|]; simpl; lia. }
  lia.
Qed.

Lemma sized_step s W N e st st' :
  sized W st -> step s W N e st = Some st' -> sized W st'.
Proof.
  unfold sized. intros [Hq Hw] H.
  destruct st as [cd lim d c q ws rep ret pan enq cmp]. simpl in *.
  step_inv H; rewrite ?length_insert, ?length_app; simpl; try lia.
  match goal with Hlt : (_ <? _)%nat = true |- _ => apply Nat.ltb_lt in Hlt end. lia.
Qed.

Section Audit.

Variable s : Scenario.
Variable W : nat.
Variable N : Z.
Hypothesis no_wrap : N < max_int.

Lemma loop_done_step e st st' :
  dispatch_inv N st -> ledger st -> loop_done N st ->
  step s W N e st = Some st' -> loop_done N st'.
Proof.
  intros [_ Hdisp] (_ & _ & _ & _ & _ & _ & _ & Hstop & _) Hk H.
  specialize (Hdisp no_wrap). unfold loop_done in *.
  destruct st as [cd lim d c q ws rep ret pan enq cmp]. simpl in *.
  step_inv H; auto; try (destruct d; intuition congruence).
  - rewrite incr_id by (unfold min_int, max_int in *; lia).
    destruct (dispatch_cases N (i + 1) c) as [[H ->] | [(H & H0 & ->) | (H & H0 & ->)]];
      auto; lia.
  - destruct (drain_cases (incr i) c) as [-> | ->]; auto.
Qed.

Lemma lead_step e st st' :
  dispatch_inv N st -> ledger st -> sized W st ->
  lead W st -> step s W N e st = Some st' -> lead W st'.
Proof.
  intros [_ Hdisp] (Hwf & HS & HV & HR & Hunits & Hdone & Hd & _) [Hq Hlen] Hlead H.
  specialize (Hdisp no_wrap). unfold lead, total in *.
  pose proof (tally_le_length (workers st)) as Hcap.
  destruct st as [cd lim d c q ws [S V R] ret pan enq cmp]. simpl in *.
  step_inv H; try exact Hlead; try lia.
  - (* a unit is enqueued *)
    match goal with Hlt : (_ <? _)%nat = true |- _ => apply Nat.ltb_lt in Hlt end. lia.
  - (* an outcome is reported while the dispatcher selects *)
    match goal with Hl : _ !! _ = Some _ |- _ =>
      pose proof (tally_insert holding _ _ _ WSelect Hl) as Hh; simpl in Hh end.
    destruct r; simpl; try lia.
    rewrite incr_id by (unfold min_int, max_int in *; lia). lia.
  - (* ... while it enqueues *)
    match goal with Hl : _ !! _ = Some _ |- _ =>
      pose proof (tally_insert holding _ _ _ WSelect Hl) as Hh; simpl in Hh end.
    destruct r; simpl; try lia.
    rewrite incr_id by (unfold min_int, max_int in *; lia). lia.
  - (* ... while it drains *)
    match goal with Hl : _ !! _ = Some _ |- _ =>
      pose proof (tally_insert holding _ _ _ WSelect Hl) as Hh; simpl in Hh end.
    destruct r; simpl; try lia.
    rewrite incr_id by (unfold min_int, max_int in *; lia). lia.
Qed.

Lemma audit_init : audit W N (init W N).
Proof.
  unfold audit. split; [apply dispatch_inv_init|]. split; [now apply ledger_init|].
  split; [|split].
  - unfold sized, init. simpl. rewrite length_replicate. lia.
  - unfold loop_done, init. simpl.
    destruct (dispatch_cases N 1 0) as [[H ->] | [(H & H0 & ->) | (H & H0 & ->)]];
      try exact I; try lia; right; lia.
  - unfold lead, init. simpl. lia.
Qed.

Lemma audit_step e st st' :
  audit W N st -> step s W N e st = Some st' -> audit W N st'.
Proof.
  intros (Hd & Hl & Hb & Hk & Hq) H. unfold audit.
  split; [exact (dispatch_inv_step s W N e st st' Hd H)|].
  split; [exact (ledger_step s W N no_wrap e st st' Hd Hl H)|].
  split; [exact (sized_step s W N e st st' Hb H)|].
  split; [exact (loop_done_step e st st' Hd Hl Hk H)|].
  exact (lead_step e st st' Hd Hl Hb Hq H).
Qed.

Lemma audit_reachable st : reachable s W N st -> audit W N st.
Proof.
  intros [tr Hrun].
  exact (run_invariant s W N _ audit_step tr _ _ audit_init Hrun).
Qed.

(** Only a cancelled run can send on the closed result channel. *)
Lemma calm_step e st st' :
  audit W N st -> (panicked st = true -> ctx_done st = true) ->
  step s W N e st = Some st' -> (panicked st' = true -> ctx_done st' = true).
Proof.
  intros ([_ Hdisp] & (Hwf & HS & HV & HR & Hunits & Hdone & Hd & _) & _ & _ & _) Hcalm H.
  specialize (Hdisp no_wrap). unfold total in *.
  destruct st as [cd lim d c q ws [S V R] ret pan enq cmp]. simpl in *.
  step_inv H; try congruence.
  intros _. destruct Hd as [Hd | Hd]; [assumption|].
  match goal with Hl : _ !! _ = Some _ |- _ =>
    pose proof (tally_insert holding _ _ _ WSelect Hl) as Hh; simpl in Hh end.
  lia.
Qed.

Lemma calm_reachable st :
  reachable s W N st -> panicked st = true -> ctx_done st = true.
Proof.
  intros [tr Hrun].
  assert (H : audit W N st /\ (panicked st = true -> ctx_done st = true)); [|apply H].
  apply (run_invariant s W N
           (fun st => audit W N st /\ (panicked st = true -> ctx_done st = true)))
    with (tr := tr) (st := init W N); [| |exact Hrun].
  - intros e st1 st2 [Ha Hc] Hstep. split.
    + exact (audit_step e st1 st2 Ha Hstep).
    + exact (calm_step e st1 st2 Ha Hc Hstep).
  - split; [apply audit_init | discriminate].
Qed.

End Audit.

(** X1: in every state of every schedule, cancelled or not, the three
    counters of the summary are non-negative and their sum is at most the
    number of units enqueued: no outcome is counted twice or out of nothing. *)
Theorem summary_never_exceeds_dispatch :
  forall s W N st,
    N < max_int ->
    reachable s W N st ->
    0 <= SuccessCount (report st)
    /\ 0 <= ValidationFailCount (report st)
    /\ 0 <= RequestFailCount (report st)
    /\ total (report st) <= Z.of_nat (enqueued st).
Proof.
  intros s W N st Hwrap Hreach.
  exact (summary_at_most_dispatched s W N Hwrap st Hreach).
Qed.

Lemma summary_never_exceeds_dispatch_witness :
  exists st,
    run one_shot default_pool 1 answered_404 (init default_pool 1) = Some st
    /\ report st = mkReport 0 1 0
    /\ total (report st) <= Z.of_nat (enqueued st).
Proof.
  eexists. split; [vm_compute; reflexivity|]. split; [reflexivity|].
  apply (summary_never_exceeds_dispatch one_shot default_pool 1).
  - reflexivity.
  - exists answered_404. vm_compute. reflexivity.
Defined.

(** X2: when [ScenarioRun] has returned and the context was never cancelled,
    exactly max(N, 0) units were dispatched, each is counted in the summary
    and has had its completion signal received, none is counted as a
    validation failure, the queue is empty, and the target count is at most
    twice the pool size. *)
Theorem uncancelled_return_accounts_for_every_unit :
  forall s W N st,
    N < max_int ->
    reachable s W N st ->
    returned st = true ->
    ctx_done st = false ->
    Z.of_nat (enqueued st) = Z.max 0 N
    /\ total (report st) = Z.max 0 N
    /\ ValidationFailCount (report st) = 0
    /\ completions st = enqueued st
    /\ scenarioCh st = []
    /\ Z.max 0 N <= 2 * Z.of_nat W.
Proof.
  intros s W N st Hwrap Hreach Hret Hctx.
  destruct (uncancelled_summary_complete s W N Hwrap st Hreach Hret Hctx)
    as (Htotal & Hv & Hcmp & Hq).
  destruct (audit_reachable s W N Hwrap st Hreach)
    as ([_ Hdisp] & (_ & _ & _ & _ & _ & _ & _ & _ & Hr) & _ & Hloop & Hlead).
  specialize (Hdisp Hwrap). unfold loop_done, lead in *.
  rewrite (Hr Hret) in Hdisp, Hloop.
  destruct Hloop as [Hloop | Hloop]; [congruence|].
  repeat split; auto; lia.
Qed.

Lemma uncancelled_return_accounts_for_every_unit_witness :
  exists st,
    run one_shot default_pool 1 answered_200 (init default_pool 1) = Some st
    /\ report st = mkReport 1 0 0
    /\ Z.of_nat (enqueued st) = Z.max 0 1
    /\ total (report st) = Z.max 0 1
    /\ ValidationFailCount (report st) = 0
    /\ completions st = enqueued st
    /\ scenarioCh st = []
    /\ Z.max 0 1 <= 2 * Z.of_nat default_pool.
Proof.
  eexists. split; [vm_compute; reflexivity|]. split; [reflexivity|].
  apply (uncancelled_return_accounts_for_every_unit one_shot default_pool 1).
  - reflexivity.
  - exists answered_200. vm_compute. reflexivity.
  - reflexivity.
  - reflexivity.
Defined.

(** X3: in every state of every schedule the queue holds at most
    [httpWorkerNum] units, the pool has [httpWorkerNum] workers, at most
    that many units are in the workers' hands, and the number of units
    enqueued is at most twice [httpWorkerNum] plus the number of validation
    failures counted: a worker that did not fail validation stays blocked on
    [done] until the dispatch loop is over. *)
Theorem dispatch_leads_by_two_pools_at_most :
  forall s W N st,
    N < max_int ->
    reachable s W N st ->
    (length (scenarioCh st) <= W)%nat
    /\ length (workers st) = W
    /\ (tally holding (workers st) + tally owing (workers st) <= W)%nat
    /\ Z.of_nat (enqueued st) <= 2 * Z.of_nat W + ValidationFailCount (report st).
Proof.
  intros s W N st Hwrap Hreach.
  destruct (audit_reachable s W N Hwrap st Hreach) as (_ & _ & [Hq Hw] & _ & Hlead).
  pose proof (tally_le_length (workers st)) as Hcap. rewrite Hw in Hcap.
  repeat split; assumption.
Qed.

Lemma dispatch_leads_by_two_pools_at_most_witness :
  exists st,
    run (ping None (Some 201) float_one) default_pool 201 pool_and_queue_full
        (init default_pool 201) = Some st
    /\ enqueued st = 200%nat
    /\ Z.of_nat (enqueued st)
       <= 2 * Z.of_nat default_pool + ValidationFailCount (report st).
Proof.
  eexists. split; [vm_compute; reflexivity|]. split; [reflexivity|].
  apply (dispatch_leads_by_two_pools_at_most (ping None (Some 201) float_one)
           default_pool 201).
  - reflexivity.
  - exists pool_and_queue_full. vm_compute. reflexivity.
Defined.

(** X4: a send on the closed result channel, the only panic of the
    goroutines, happens only in a run whose context was cancelled. *)
Theorem panic_only_after_cancellation :
  forall s W N st,
    N < max_int ->
    reachable s W N st ->
    panicked st = true ->
    ctx_done st = true.
Proof.
  intros s W N st Hwrap Hreach. exact (calm_reachable s W N Hwrap st Hreach).
Qed.

Lemma panic_only_after_cancellation_witness :
  exists st,
    run two_shot default_pool 2
        (interrupted_in_flight ++ [WorkerHttp 0 (Response 200); WorkerReport 0])
        (init default_pool 2) = Some st
    /\ panicked st = true
    /\ ctx_done st = true.
Proof.
  eexists. split; [vm_compute; reflexivity|]. split; [reflexivity|].
  apply (panic_only_after_cancellation two_shot default_pool 2).
  - reflexivity.
  - exists (interrupted_in_flight ++ [WorkerHttp 0 (Response 200); WorkerReport 0]).
    vm_compute. reflexivity.
  - reflexivity.
Defined.

(** ** Targets that ask for nothing, cancellation, and the closed channel *)

Section Afterwards.

Variable s : Scenario.
Variable W : nat.
Variable N : Z.

Lemma unused_init : N <= 0 -> unused (init W N).
Proof.
  intros HN. unfold unused, init. simpl.
  destruct (dispatch_cases N 1 0) as [[H Hd] | [(H & H0 & Hd) | (H & H0 & Hd)]];
    try lia. rewrite Hd. repeat split. now apply forallb_replicate.
Qed.

Lemma unused_step e st st' :
  unused st -> step s W N e st = Some st' -> unused st'.
Proof.
  intros (Hd & Hc & Hq & Hw & Hrep & Henq & Hcmp & Hpan) H. unfold unused.
  destruct st as [cd lim d c q ws rep ret pan enq cmp]. simpl in *. subst.
  step_inv H; try discriminate; try worker_clash Hw;
    repeat split; auto; now apply forallb_insert.
Qed.

Lemma cancelled_step e st st' :
  ctx_done st = true -> step s W N e st = Some st' ->
  ctx_done st' = true
  /\ (enqueued st' + pending_dispatch st' <= enqueued st + pending_dispatch st)%nat.
Proof.
  intros Hc H. unfold pending_dispatch.
  destruct st as [cd lim d c q ws rep ret pan enq cmp]. simpl in *. subst cd.
  step_inv H; try discriminate; split; auto; try lia;
    try (destruct lim; lia); try (destruct d; lia).
  - destruct (dispatch_cases N (incr i) c) as [[H ->] | [(H & H0 & ->) | (H & H0 & ->)]];
      destruct lim; lia.
  - destruct (drain_cases (incr i) c) as [-> | ->]; destruct lim; lia.
Qed.

Lemma cancelled_run tr :
  forall st st',
    ctx_done st = true -> run s W N tr st = Some st' ->
    ctx_done st' = true
    /\ (enqueued st' + pending_dispatch st' <= enqueued st + pending_dispatch st)%nat.
Proof.
  induction tr as [|e tr IH]; intros st st' Hc Hrun; simpl in Hrun.
  - injection Hrun as <-. split; [assumption | lia].
  - destruct (step s W N e st) as [st1|] eqn:He; [|discriminate].
    destruct (cancelled_step e st st1 Hc He) as [Hc1 Hle].
    destruct (IH st1 st' Hc1 Hrun) as [Hc' Hle']. split; [assumption | lia].
Qed.

Lemma pending_dispatch_le_2 st : (pending_dispatch st <= 2)%nat.
Proof. unfold pending_dispatch. destruct (limiter st), (dispatcher st); lia. Qed.

Lemma closed_step e st st' :
  dispatcher st = DReturned -> step s W N e st = Some st' ->
  dispatcher st' = DReturned /\ report st' = report st
  /\ enqueued st' = enqueued st /\ completions st' = completions st.
Proof.
  intros Hd H. destruct st as [cd lim d c q ws rep ret pan enq cmp]. simpl in *. subst d.
  step_inv H; try discriminate; auto.
Qed.

End Afterwards.

(** X5: with a target count of 0 or less, whatever the throughput, nothing is
    ever dispatched, the summary stays all-zero, no goroutine panics, and in
    every state in which [ScenarioRun] has not returned yet it can return,
    the all-zero summary. *)
Theorem nonpositive_target_returns_at_once :
  forall s W N st,
    N <= 0 ->
    reachable s W N st ->
    enqueued st = 0%nat
    /\ report st = no_report
    /\ panicked st = false
    /\ (returned st = false ->
        exists st',
          step s W N AggregatorReturn st = Some st'
          /\ returned st' = true /\ report st' = no_report).
Proof.
  intros s W N st HN [tr Hrun].
  assert (Hu : unused st).
  { exact (run_invariant s W N _ (unused_step s W N) tr _ _ (unused_init W N HN) Hrun). }
  destruct Hu as (Hd & _ & _ & _ & Hrep & Henq & _ & Hpan).
  repeat split; auto.
  intros Hret. exists (set_returned true st).
  unfold step. rewrite Hpan, Hd, Hret. repeat split. exact Hrep.
Qed.

Lemma nonpositive_target_returns_at_once_witness :
  exists st,
    run (ping None (Some (-3)) float_one) default_pool (-3)
        [LimiterPermit; CtxCancel; WorkerCancel 7] (init default_pool (-3)) = Some st
    /\ returned st = false
    /\ exists st',
         step (ping None (Some (-3)) float_one) default_pool (-3) AggregatorReturn st
         = Some st'
         /\ returned st' = true /\ report st' = no_report.
Proof.
  eexists. split; [vm_compute; reflexivity|]. split; [reflexivity|].
  apply (nonpositive_target_returns_at_once (ping None (Some (-3)) float_one)
           default_pool (-3)).
  - lia.
  - exists [LimiterPermit; CtxCancel; WorkerCancel 7]. vm_compute. reflexivity.
  - reflexivity.
Defined.

(** X6: once the context is cancelled it stays cancelled, and the dispatcher
    enqueues at most the permits already granted: one the limiter is about to
    hand over and one the dispatcher is about to enqueue, so at most two more
    units. *)
Theorem cancellation_bounds_further_dispatch :
  forall s W N tr st st',
    ctx_done st = true ->
    run s W N tr st = Some st' ->
    ctx_done st' = true
    /\ (enqueued st' + pending_dispatch st' <= enqueued st + pending_dispatch st)%nat
    /\ (enqueued st' <= enqueued st + 2)%nat.
Proof.
  intros s W N tr st st' Hc Hrun.
  destruct (cancelled_run s W N tr st st' Hc Hrun) as [Hc' Hle].
  pose proof (pending_dispatch_le_2 st).
  repeat split; auto; lia.
Qed.

Lemma cancellation_bounds_further_dispatch_witness :
  exists st st',
    run two_shot default_pool 2 interrupted_with_two_permits (init default_pool 2)
    = Some st
    /\ enqueued st = 0%nat
    /\ run two_shot default_pool 2
           [DispatcherEnqueue; DispatcherPermit; DispatcherEnqueue] st = Some st'
    /\ enqueued st' = 2%nat
    /\ (enqueued st' <= enqueued st + 2)%nat.
Proof.
  eexists. eexists. split; [vm_compute; reflexivity|]. split; [reflexivity|].
  split; [vm_compute; reflexivity|]. split; [reflexivity|].
  apply (cancellation_bounds_further_dispatch two_shot default_pool 2
           [DispatcherEnqueue; DispatcherPermit; DispatcherEnqueue]).
  - reflexivity.
  - vm_compute. reflexivity.
Defined.

(** X7: once the dispatcher has returned and closed the result channel, the
    channel stays closed and the summary, the number of units enqueued and
    the number of completion signals received never change again: what
    [ScenarioRun] returns is final. *)
Theorem closed_summary_is_final :
  forall s W N tr st st',
    dispatcher st = DReturned ->
    run s W N tr st = Some st' ->
    dispatcher st' = DReturned
    /\ report st' = report st
    /\ enqueued st' = enqueued st
    /\ completions st' = completions st.
Proof.
  intros s W N tr. induction tr as [|e tr IH]; intros st st' Hd Hrun; simpl in Hrun.
  - injection Hrun as <-. auto.
  - destruct (step s W N e st) as [st1|] eqn:He; [|discriminate].
    destruct (closed_step s W N e st st1 Hd He) as (Hd1 & Hr1 & He1 & Hc1).
    destruct (IH st1 st' Hd1 Hrun) as (Hd' & Hr' & He' & Hc').
    repeat split; congruence.
Qed.

Lemma closed_summary_is_final_witness :
  exists st st',
    run two_shot default_pool 2 interrupted_in_flight (init default_pool 2) = Some st
    /\ run two_shot default_pool 2
           [AggregatorReturn; WorkerHttp 0 (Response 200); WorkerReport 0] st = Some st'
    /\ returned st' = true
    /\ report st' = report st.
Proof.
  eexists. eexists. split; [vm_compute; reflexivity|].
  split; [vm_compute; reflexivity|]. split; [reflexivity|].
  apply (closed_summary_is_final two_shot default_pool 2
           [AggregatorReturn; WorkerHttp 0 (Response 200); WorkerReport 0]).
  - reflexivity.
  - vm_compute. reflexivity.
Defined.

(** X8: once the dispatcher is blocked on the full queue while every worker
    is blocked on [done], it stays so on every continuation, cancellation
    included, and [ScenarioRun] never returns. *)
Theorem full_queue_behind_blocked_workers_never_returns :
  forall s W N tr st st',
    jammed W st ->
    run s W N tr st = Some st' ->
    jammed W st' /\ returned st' = false.
Proof.
  intros s W N tr st st' Hj Hrun.
  assert (H : jammed W st').
  { exact (run_invariant s W N _ (jammed_step s W N) tr _ _ Hj Hrun). }
  split; [exact H | apply H].
Qed.

Lemma full_queue_behind_blocked_workers_never_returns_witness :
  exists st st',
    run (ping None (Some 3) float_one) 1 3
        (served_by 0 ++ [LimiterPermit; DispatcherPermit; DispatcherEnqueue;
                         LimiterPermit; DispatcherPermit])
        (init 1 3) = Some st
    /\ run (ping None (Some 3) float_one) 1 3 [CtxCancel; LimiterStop] st = Some st'
    /\ returned st' = false.
Proof.
  eexists. eexists. split; [vm_compute; reflexivity|].
  lazymatch goal with |- run _ _ _ _ ?st = _ /\ _ => pose (mid := st) end.
  split; [vm_compute; reflexivity|].
  eapply proj2.
  apply (full_queue_behind_blocked_workers_never_returns
           (ping None (Some 3) float_one) 1 3 [CtxCancel; LimiterStop] mid).
  - split; [eexists; reflexivity|]. repeat split.
  - vm_compute. reflexivity.
Defined.

(** X9: once the dispatcher waits in its drain loop while no worker holds a
    unit and either the queue is empty or every worker has returned, it waits
    for ever on every continuation, cancellation included, and
    [ScenarioRun] never returns. *)
Theorem drain_without_a_unit_in_hand_never_returns :
  forall s W N tr st st',
    starved st ->
    run s W N tr st = Some st' ->
    starved st' /\ returned st' = false.
Proof.
  intros s W N tr st st' Hs Hrun.
  assert (H : starved st').
  { exact (run_invariant s W N _ (starved_step s W N) tr _ _ Hs Hrun). }
  split; [exact H | apply H].
Qed.

Lemma drain_without_a_unit_in_hand_never_returns_witness :
  exists st st',
    run one_shot default_pool 1 answered_404 (init default_pool 1) = Some st
    /\ run one_shot default_pool 1 [CtxCancel; WorkerCancel 0; LimiterStop] st = Some st'
    /\ returned st' = false.
Proof.
  eexists. eexists. split; [vm_compute; reflexivity|].
  lazymatch goal with |- run _ _ _ _ ?st = _ /\ _ => pose (mid := st) end.
  split; [vm_compute; reflexivity|].
  eapply proj2.
  apply (drain_without_a_unit_in_hand_never_returns one_shot default_pool 1
           [CtxCancel; WorkerCancel 0; LimiterStop] mid).
  - repeat split. left. split; reflexivity.
  - vm_compute. reflexivity.
Defined.

(** ** The outcome of a response *)

Lemma any_rule_fails_run vs code :
  snd (run_validates vs code)
  = if any_rule_fails vs code then find (fun v => rule_fails v code) vs else None.
Proof.
  unfold any_rule_fails. induction vs as [|v vs IH]; simpl; [reflexivity|].
  destruct (rule_fails v code); simpl; [reflexivity|].
  destruct (run_validates vs code) as [seen failed]. simpl in *. exact IH.
Qed.

Lemma outcome_response s code :
  outcome s (Response code)
  = [if any_rule_fails (Validates s) code then ResultValidationFail else ResultOK].
Proof.
  unfold outcome, worker_unit.
  pose proof (any_rule_fails_run (Validates s) code) as H.
  destruct (run_validates (Validates s) code) as [seen failed]. simpl in H.
  unfold any_rule_fails in *.
  destruct (existsb (fun v => rule_fails v code) (Validates s)) eqn:He.
  - subst failed. apply existsb_exists in He as (v & Hin & Hv).
    destruct (find (fun v => rule_fails v code) (Validates s)) eqn:Hf; [reflexivity|].
    exfalso. pose proof (find_none _ _ Hf v Hin) as Hn. simpl in Hn. congruence.
  - subst failed. reflexivity.
Qed.

Lemma any_rule_fails_iff vs code :
  any_rule_fails vs code = true
  <-> exists v want, In v vs /\ StatusCode v = Some want /\ want <> code.
Proof.
  unfold any_rule_fails. rewrite existsb_exists. split.
  - intros (v & Hin & Hv). unfold rule_fails in Hv.
    destruct (StatusCode v) as [want|] eqn:Hs; [|discriminate].
    exists v, want. repeat split; auto.
    apply negb_true_iff, Z.eqb_neq in Hv. congruence.
  - intros (v & want & Hin & Hs & Hne). exists v. split; [assumption|].
    unfold rule_fails. rewrite Hs. apply negb_true_iff, Z.eqb_neq. congruence.
Qed.

Lemma any_rule_fails_perm vs vs' code :
  vs ≡ₚ vs' -> any_rule_fails vs code = any_rule_fails vs' code.
Proof.
  intros Hp. unfold any_rule_fails.
  induction Hp; simpl; try congruence.
  destruct (rule_fails x code), (rule_fails y code); reflexivity.
Qed.

(** X10: a response is reported as a validation failure exactly when some
    rule of the scenario carries a status code different from the response's,
    and as a success otherwise; rules without a status code, the names of the
    rules and the number of times a rule is listed play no part. *)
Theorem validation_fails_iff_some_status_differs :
  forall s code,
    (outcome s (Response code) = [ResultValidationFail]
     <-> exists v want,
           In v (Validates s) /\ StatusCode v = Some want /\ want <> code)
    /\ (outcome s (Response code) = [ResultOK]
        <-> forall v want,
              In v (Validates s) -> StatusCode v = Some want -> want = code).
Proof.
  intros s code. rewrite outcome_response.
  pose proof (any_rule_fails_iff (Validates s) code) as Hiff.
  destruct (any_rule_fails (Validates s) code); split; split.
  - intros _. now apply Hiff.
  - reflexivity.
  - discriminate.
  - intros Hall. exfalso.
    destruct (proj1 Hiff eq_refl) as (v & want & Hin & Hs & Hne).
    apply Hne. exact (Hall v want Hin Hs).
  - discriminate.
  - intros H. apply Hiff in H. discriminate.
  - intros _ v want Hin Hs.
    destruct (Z.eq_dec want code) as [|Hne]; [assumption|]. exfalso.
    assert (false = true) by (apply Hiff; exists v, want; auto). discriminate.
  - reflexivity.
Qed.

(** X11: two scenarios that declare the same rules in a different order
    report the same outcome for every result of the request. *)
Theorem outcome_ignores_rule_order :
  forall s s' h,
    Validates s ≡ₚ Validates s' ->
    outcome s h = outcome s' h.
Proof.
  intros s s' h Hp. destruct h as [| |code]; try reflexivity.
  rewrite !outcome_response. now rewrite (any_rule_fails_perm _ _ code Hp).
Qed.

Lemma outcome_ignores_rule_order_witness :
  outcome (mkScenario "ping" "https://google.com" None (Some 1) float_one
                      [any_status; status_200; status_204]) (Response 204)
  = outcome (mkScenario "ping" "https://google.com" None (Some 1) float_one
                        [status_204; any_status; status_200]) (Response 204).
Proof.
  apply (outcome_ignores_rule_order
           (mkScenario "ping" "https://google.com" None (Some 1) float_one
                       [any_status; status_200; status_204])
           (mkScenario "ping" "https://google.com" None (Some 1) float_one
                       [status_204; any_status; status_200])).
  simpl. symmetry.
  apply (Permutation_cons_append [any_status; status_200] status_204).
Defined.

(** ** Target counts of whole-number rates *)

(** An [int] of at most 53 bits converts to the [float64] of the same value,
    with a full mantissa. *)
Lemma binary_round_small sx mp :
  Zpos (digits2_pos mp) <= prec ->
  exists m',
    binary_round prec emax sx mp 0
    = S754_finite sx m' (Zpos (digits2_pos mp) - prec)
    /\ Zpos m' = Zpos mp * 2 ^ (prec - Zpos (digits2_pos mp))
    /\ Zpos (digits2_pos m') = prec.
Proof.
  intros Hd. pose proof (Pos2Z.is_pos (digits2_pos mp)) as Hpos.
  unfold binary_round, shl_align.
  replace (fexp prec emax (Z.pos (digits2_pos mp) + 0) - 0)
    with (Zpos (digits2_pos mp) - prec)
    by (unfold fexp, emin, prec, emax in *; lia).
  replace (fexp prec emax (Z.pos (digits2_pos mp) + 0))
    with (Zpos (digits2_pos mp) - prec)
    by (unfold fexp, emin, prec, emax in *; lia).
  destruct (Zpos (digits2_pos mp) - prec) as [|n|n] eqn:Hn; try lia.
  - exists mp. split; [|split].
    + apply binary_round_aux_after_shift.
      * unfold shr_fexp. simpl Zdigits2.
        replace (fexp prec emax (Z.pos (digits2_pos mp) + 0) - 0) with 0
          by (unfold fexp, emin, prec, emax in *; lia).
        reflexivity.
      * lia.
      * unfold emin, prec, emax. lia.
    + replace (prec - Zpos (digits2_pos mp)) with 0 by lia. lia.
    + lia.
  - exists (Pos.iter xO mp n). split; [|split].
    + apply binary_round_aux_after_shift.
      * unfold shr_fexp. simpl Zdigits2. rewrite digits2_pos_iter_xO.
        match goal with |- shr _ _ ?x = _ => replace x with 0
          by (unfold fexp, emin, prec, emax in *; lia) end.
        reflexivity.
      * rewrite digits2_pos_iter_xO. lia.
      * unfold emin, prec, emax in *. lia.
    + rewrite Zpos_iter_xO. f_equal. f_equal. lia.
    + rewrite digits2_pos_iter_xO. lia.
Qed.

Lemma float64_of_small_int p :
  0 < p < 2 ^ prec ->
  exists m,
    float64_of_int p = S754_finite false m (Zdigits2 p - prec)
    /\ Zpos m = p * 2 ^ (prec - Zdigits2 p)
    /\ Zpos (digits2_pos m) = prec.
Proof.
  intros Hp. destruct p as [|mp|mp]; try lia.
  unfold float64_of_int, binary_normalize. simpl Zdigits2.
  apply binary_round_small.
  change (Zdigits2 (Zpos mp) <= prec).
  pose proof (Zdigits2_le_of_le_pow2 (Zpos mp) (prec - 1)) as H.
  rewrite Zdigits2_log2 in * by lia.
  assert (Z.log2 (Zpos mp) < prec) by (apply Z.log2_lt_pow2; lia). lia.
Qed.

Lemma Zdigits2_mul_below a b :
  0 < a -> 0 < b -> Zdigits2 a + Zdigits2 b - 1 <= Zdigits2 (a * b).
Proof.
  intros Ha Hb. rewrite !Zdigits2_log2 by nia.
  pose proof (Z.log2_mul_below a b Ha Hb). lia.
Qed.

(** The product of two small integers is exact in [float64]. *)
Lemma fmul_small_ints p q :
  0 < p -> 0 < q -> p * q < 2 ^ prec ->
  exists m,
    fmul (float64_of_int p) (float64_of_int q)
    = S754_finite false m (Zdigits2 (p * q) - prec)
    /\ Zpos m = p * q * 2 ^ (prec - Zdigits2 (p * q)).
Proof.
  intros Hp Hq Hpq.
  assert (Hp53 : p < 2 ^ prec) by nia.
  assert (Hq53 : q < 2 ^ prec) by nia.
  destruct (float64_of_small_int p ltac:(lia)) as (m1 & -> & Hm1 & Hd1).
  destruct (float64_of_small_int q ltac:(lia)) as (m2 & -> & Hm2 & Hd2).
  set (dp := Zdigits2 p) in *. set (dq := Zdigits2 q) in *.
  set (dr := Zdigits2 (p * q)).
  assert (Hdp : 1 <= dp <= prec).
  { subst dp. rewrite Zdigits2_log2 by lia.
    pose proof (Z.log2_nonneg p).
    assert (Z.log2 p < prec) by (apply Z.log2_lt_pow2; lia). lia. }
  assert (Hdq : 1 <= dq <= prec).
  { subst dq. rewrite Zdigits2_log2 by lia.
    pose proof (Z.log2_nonneg q).
    assert (Z.log2 q < prec) by (apply Z.log2_lt_pow2; lia). lia. }
  assert (Hdr : dp + dq - 1 <= dr <= prec).
  { subst dr dp dq. split; [apply Zdigits2_mul_below; lia|].
    rewrite Zdigits2_log2 by nia.
    assert (Z.log2 (p * q) < prec) by (apply Z.log2_lt_pow2; nia). lia. }
  assert (Hr : exists b, Zpos b = p * q * 2 ^ (prec - dr)).
  { assert (0 < p * q * 2 ^ (prec - dr)).
    { apply Z.mul_pos_pos; [nia | apply Z.pow_pos_nonneg; lia]. }
    destruct (p * q * 2 ^ (prec - dr)) as [|b|b]; try lia. now exists b. }
  destruct Hr as [b Hb]. exists b. split; [|exact Hb].
  unfold fmul, SFmul. simpl xorb.
  set (n := dr + prec - dp - dq).
  assert (Hn : 0 < n) by (unfold prec in *; lia).
  assert (HM : Zpos (m1 * m2) = Zpos b * 2 ^ n).
  { rewrite Pos2Z.inj_mul, Hm1, Hm2, Hb.
    replace (p * 2 ^ (prec - dp) * (q * 2 ^ (prec - dq)))
      with (p * q * (2 ^ (prec - dp) * 2 ^ (prec - dq))) by ring.
    rewrite <- Z.pow_add_r by lia.
    replace (prec - dp + (prec - dq)) with ((prec - dr) + n) by (unfold n; lia).
    rewrite Z.pow_add_r by lia. ring. }
  assert (HdM : Zdigits2 (Zpos (m1 * m2)) = prec + n).
  { rewrite HM, Zdigits2_mul_pow2 by lia. rewrite Hb.
    rewrite Zdigits2_mul_pow2 by (try nia; lia). fold dr. lia. }
  apply binary_round_aux_after_shift.
  - unfold shr_fexp. rewrite HdM.
    replace (fexp prec emax (prec + n + (dp - prec + (dq - prec))) - (dp - prec + (dq - prec)))
      with n by (unfold fexp, emin, prec, emax, n in *; lia).
    destruct n as [|pn|pn] eqn:En; try lia.
    unfold shr. f_equal; [|unfold prec in *; lia].
    change (shr_record_of_loc (Zpos (m1 * m2)) loc_Exact)
      with (exact_record (Zpos (m1 * m2))).
    rewrite HM. apply iter_shr_exact. lia.
  - change (Zdigits2 (Zpos b) = prec). rewrite Hb.
    rewrite Zdigits2_mul_pow2 by (try nia; lia). fold dr. lia.
  - unfold emin, prec, emax in *. lia.
Qed.

Lemma ceilZ_scaled r k : 0 <= k -> ceilZ (r * 2 ^ k) (- k) = r.
Proof.
  intros Hk. unfold ceilZ. rewrite Z.shiftl_div_pow2 by lia.
  rewrite Z.opp_involutive, <- Z.mul_opp_l, Z.div_mul; [lia|].
  apply Z.pow_nonzero; lia.
Qed.

(** X12: with a period of [p] seconds and a throughput that is the whole
    number [q], the target count is exactly [p * q], as long as the product
    stays below 2^53: the [float64] product and its ceiling lose nothing. *)
Theorem target_count_integral_rate :
  forall undef s p q,
    Period s = Some p ->
    Throughput s = float64_of_int q ->
    fits_int p = true ->
    0 <= p -> 0 <= q < 2 ^ 53 -> p * q < 2 ^ 53 ->
    targetCount undef s = inr (p * q).
Proof.
  intros undef s p q Hper Hrate Hfit Hp Hq Hpq.
  destruct (Z.eq_dec q 0) as [-> | Hq0].
  { rewrite (targetCount_period_zero_rate undef s p Hper Hfit).
    - f_equal. lia.
    - rewrite Hrate. exact I. }
  destruct (Z.eq_dec p 0) as [-> | Hp0].
  { rewrite (targetCount_period _ _ _ Hper), Hrate.
    destruct (float64_of_small_int q ltac:(unfold prec; lia)) as (m & -> & _).
    reflexivity. }
  destruct (fmul_small_ints p q ltac:(lia) ltac:(lia) Hpq) as (m & Hmul & Hm).
  assert (Hd : Zdigits2 (p * q) <= prec).
  { rewrite Zdigits2_log2 by nia.
    assert (Z.log2 (p * q) < prec) by (apply Z.log2_lt_pow2; unfold prec; nia). lia. }
  assert (Hceil : ceilZ (cond_Zopp false (Zpos m)) (Zdigits2 (p * q) - prec) = p * q).
  { simpl cond_Zopp. rewrite Hm.
    replace (Zdigits2 (p * q) - prec) with (- (prec - Zdigits2 (p * q))) by lia.
    apply ceilZ_scaled. lia. }
  rewrite <- Hceil. apply (targetCount_is_ceiling undef s p); try assumption.
  - now rewrite Hrate.
  - rewrite Hceil. unfold fits_int, min_int, max_int.
    apply andb_true_iff. split; apply Z.leb_le; nia.
Qed.

Lemma target_count_integral_rate_witness :
  targetCount amd64_unrepresentable (ping (Some 300) None (float64_of_int 7)) = inr 2100.
Proof.
  apply (target_count_integral_rate amd64_unrepresentable
           (ping (Some 300) None (float64_of_int 7)) 300 7); try reflexivity; lia.
Defined.

(** ** A run that completes *)

Lemma lookup_after_replicate {A} (x y : A) j l :
  (replicate j x ++ y :: l) !! j = Some y.
Proof. induction j; simpl; auto. Qed.

Lemma insert_after_replicate {A} (x y z : A) j l :
  <[j := z]> (replicate j x ++ y :: l) = replicate j x ++ z :: l.
Proof. induction j; simpl; [reflexivity | now rewrite IHj]. Qed.

Lemma replicate_snoc_app {A} (x : A) j l :
  replicate j x ++ x :: l = replicate (S j) x ++ l.
Proof. induction j; simpl; [reflexivity | now rewrite IHj]. Qed.

Lemma replicate_snoc {A} (x : A) j : replicate j x ++ [x] = replicate (S j) x.
Proof. rewrite replicate_snoc_app. apply app_nil_r. Qed.

Lemma run_step s W N e tr st st1 :
  step s W N e st = Some st1 -> run s W N (e :: tr) st = run s W N tr st1.
Proof. intros H. simpl. now rewrite H. Qed.

Section Moves.

Variable s : Scenario.
Variable W : nat.
Variable N : Z.
Variable code : Z.
Hypothesis emits : limiter_emits (Throughput s) = true.
Hypothesis passes : any_rule_fails (Validates s) code = false.

Lemma passing_unit :
  worker_unit s (Response code)
  = mkUnitRun (Validates s) [SendReport ResultOK; SendDone] ContinueL.
Proof.
  unfold worker_unit. rewrite run_validates_pass; [reflexivity|].
  unfold any_rule_fails in passes. apply Forall_forall. intros v Hv.
  destruct (rule_fails v code) eqn:Hf; [|reflexivity].
  assert (existsb (fun v => rule_fails v code) (Validates s) = true).
  { apply existsb_exists. exists v. split; [now apply list_elem_of_In | exact Hf]. }
  congruence.
Qed.

(** A permit travels from the limiter to the queue. *)
Lemma enqueue_one i c q ws rep enq cmp :
  (length q < W)%nat ->
  run s W N [LimiterPermit; DispatcherPermit; DispatcherEnqueue]
      (mkState false LWait (DSelect i) c q ws rep false false enq cmp)
  = Some (mkState false LWait (dispatch N (incr i) (incr c)) (incr c)
                  (q ++ [s]) ws rep false false (S enq) cmp).
Proof.
  intros Hq.
  rewrite (run_step _ _ _ LimiterPermit _ _
             (mkState false LSend (DSelect i) c q ws rep false false enq cmp)).
  2:{ unfold step. simpl. now rewrite emits. }
  rewrite (run_step _ _ _ DispatcherPermit _ _
             (mkState false LWait (DEnqueue i) (incr c) q ws rep
                      false false enq cmp)) by reflexivity.
  rewrite (run_step _ _ _ DispatcherEnqueue _ _
             (mkState false LWait (dispatch N (incr i) (incr c)) (incr c)
                      (q ++ [s]) ws rep false false (S enq) cmp)).
  2:{ unfold step. simpl. destruct (Nat.ltb_spec (length q) W); [reflexivity | lia]. }
  reflexivity.
Qed.

(** An idle worker takes the oldest unit, gets the answer [code] and reports
    the success. *)
Lemma unit_served d c q ws w rep enq cmp :
  ws !! w = Some WSelect -> d <> DReturned ->
  run s W N [WorkerTake w; WorkerHttp w (Response code); WorkerReport w]
      (mkState false LWait d c (s :: q) ws rep false false enq cmp)
  = Some (mkState false LWait d c q (<[w := done_owed]> ws)
                  (count_result ResultOK rep) false false enq cmp).
Proof.
  intros Hw Hd. pose proof (lookup_lt_Some _ _ _ Hw) as Hlen.
  rewrite (run_step _ _ _ (WorkerTake w) _ _
             (mkState false LWait d c q (<[w := WRequest s]> ws) rep
                      false false enq cmp)).
  2:{ unfold step. simpl. now rewrite Hw. }
  rewrite (run_step _ _ _ (WorkerHttp w (Response code)) _ _
             (mkState false LWait d c q
                      (<[w := WSend [SendReport ResultOK; SendDone] ContinueL]> ws) rep
                      false false enq cmp)).
  2:{ unfold step. cbn -[worker_unit].
      rewrite list_lookup_insert_eq by exact Hlen. rewrite passing_unit.
      unfold set_worker. simpl. now rewrite list_insert_insert_eq. }
  rewrite (run_step _ _ _ (WorkerReport w) _ _
             (mkState false LWait d c q (<[w := done_owed]> ws)
                      (count_result ResultOK rep) false false enq cmp)).
  2:{ unfold step. simpl. rewrite list_lookup_insert_eq by exact Hlen.
      unfold set_worker. simpl. rewrite list_insert_insert_eq.
      destruct d; try reflexivity. congruence. }
  reflexivity.
Qed.

(** The dispatcher receives the completion signal of a worker. *)
Lemma done_received i c q ws w rep enq cmp :
  ws !! w = Some done_owed ->
  run s W N [DispatcherDone w]
      (mkState false LWait (DDrain i) c q ws rep false false enq cmp)
  = Some (mkState false LWait (drain (incr i) c) c q (<[w := WSelect]> ws) rep
                  false false enq (S cmp)).
Proof.
  intros Hw. simpl. unfold step. simpl. now rewrite Hw.
Qed.

End Moves.

Section Smooth.

Variable s : Scenario.
Variable W : nat.
Variable n : nat.
Variable code : Z.
Hypothesis pool : (n <= 2 * W)%nat.
Hypothesis no_wrap : Z.of_nat n < max_int.
Hypothesis emits : limiter_emits (Throughput s) = true.
Hypothesis passes : any_rule_fails (Validates s) code = false.

Local Abbreviation N := (Z.of_nat n).
Local Abbreviation a := (first_wave W n).
Local Abbreviation b := (second_wave W n).

Lemma waves : (a <= W /\ a <= n /\ b <= a /\ a + b = n)%nat.
Proof. unfold first_wave, second_wave. lia. Qed.

Lemma int_of_nat k : (k <= n)%nat -> min_int <= Z.of_nat k < max_int.
Proof. intros Hk. unfold min_int, max_int in *. lia. Qed.

Lemma dispatch_next k :
  (k < n)%nat -> dispatch N (Z.of_nat k + 1) (Z.of_nat k) = DSelect (Z.of_nat k + 1).
Proof.
  intros Hk. unfold dispatch. destruct (Z.leb_spec (Z.of_nat k + 1) N); [reflexivity | lia].
Qed.

Lemma fill_step k :
  (k < a)%nat ->
  run s W N [LimiterPermit; DispatcherPermit; DispatcherEnqueue] (filled s W n k)
  = Some (filled s W n (S k)).
Proof.
  intros Hk. pose proof waves as Hw. unfold filled.
  rewrite dispatch_next by lia.
  rewrite (enqueue_one s W N emits) by (rewrite length_replicate; lia).
  rewrite replicate_snoc.
  rewrite !incr_id by (pose proof (int_of_nat k ltac:(lia)); lia).
  rewrite Nat2Z.inj_succ. unfold Z.succ. reflexivity.
Qed.

Lemma fill_run k :
  (k <= a)%nat -> run s W N (fill k) (filled s W n 0) = Some (filled s W n k).
Proof.
  induction k as [|k IH]; intros Hk; [reflexivity|].
  unfold fill. rewrite <- replicate_snoc, concat_app. simpl concat.
  rewrite ?app_nil_r, run_app. fold (fill k). rewrite IH by lia.
  apply fill_step. lia.
Qed.

Lemma serve_step j :
  (j < a)%nat ->
  run s W N [WorkerTake j; WorkerHttp j (Response code); WorkerReport j] (served s W n j)
  = Some (served s W n (S j)).
Proof.
  intros Hj. pose proof waves as Hw. unfold served.
  replace (W - j)%nat with (S (W - S j)) by lia.
  replace (a - j)%nat with (S (a - S j)) by lia.
  simpl replicate.
  rewrite (unit_served s W N code passes).
  - rewrite insert_after_replicate, replicate_snoc_app. simpl count_result.
    rewrite incr_id by (pose proof (int_of_nat j ltac:(lia)); lia).
    rewrite Nat2Z.inj_succ. unfold Z.succ. reflexivity.
  - apply lookup_after_replicate.
  - unfold dispatch, drain.
    destruct (Z.of_nat a + 1 <=? N); [discriminate|].
    destruct (Z.ltb_spec 0 (Z.of_nat a)); [discriminate | lia].
Qed.

Lemma serve_run j :
  (j <= a)%nat -> run s W N (serve code j) (served s W n 0) = Some (served s W n j).
Proof.
  induction j as [|j IH]; intros Hj; [reflexivity|].
  unfold serve. rewrite seq_S, map_app, concat_app. simpl.
  rewrite run_app. fold (serve code j). rewrite IH by lia.
  apply serve_step. lia.
Qed.

Lemma refill_step k :
  (k < b)%nat ->
  run s W N [LimiterPermit; DispatcherPermit; DispatcherEnqueue] (refilled s W n k)
  = Some (refilled s W n (S k)).
Proof.
  intros Hk. pose proof waves as Hw. unfold refilled.
  rewrite dispatch_next by lia.
  rewrite (enqueue_one s W N emits) by (rewrite length_replicate; lia).
  rewrite replicate_snoc.
  rewrite !incr_id by (pose proof (int_of_nat (a + k) ltac:(lia)); lia).
  replace (a + S k)%nat with (S (a + k)) by lia.
  rewrite Nat2Z.inj_succ. unfold Z.succ. reflexivity.
Qed.

Lemma refill_run k :
  (k <= b)%nat -> run s W N (fill k) (refilled s W n 0) = Some (refilled s W n k).
Proof.
  induction k as [|k IH]; intros Hk; [reflexivity|].
  unfold fill. rewrite <- replicate_snoc, concat_app. simpl concat.
  rewrite ?app_nil_r, run_app. fold (fill k). rewrite IH by lia.
  apply refill_step. lia.
Qed.

Lemma owed_in_first_wave j l :
  (j < a)%nat -> (replicate a done_owed ++ l) !! j = Some done_owed.
Proof.
  intros Hj. rewrite lookup_app_l by (rewrite length_replicate; lia).
  now apply lookup_replicate_2.
Qed.

Lemma recycle_step j :
  (j < b)%nat ->
  run s W N [DispatcherDone j; WorkerTake j; WorkerHttp j (Response code); WorkerReport j]
      (recycled s W n j)
  = Some (recycled s W n (S j)).
Proof.
  intros Hj. pose proof waves as Hw. unfold recycled.
  assert (Hd : drain (Z.of_nat j) N = DDrain (Z.of_nat j)).
  { unfold drain. destruct (Z.ltb_spec (Z.of_nat j) N); [reflexivity | lia]. }
  assert (Hd' : drain (Z.of_nat (S j)) N = DDrain (Z.of_nat (S j))).
  { unfold drain. destruct (Z.ltb_spec (Z.of_nat (S j)) N); [reflexivity | lia]. }
  rewrite Hd, Hd'.
  replace (b - j)%nat with (S (b - S j)) by lia. simpl replicate.
  change [DispatcherDone j; WorkerTake j; WorkerHttp j (Response code); WorkerReport j]
    with ([DispatcherDone j]
            ++ [WorkerTake j; WorkerHttp j (Response code); WorkerReport j]).
  rewrite run_app, done_received by (apply owed_in_first_wave; lia).
  rewrite incr_id by (pose proof (int_of_nat j ltac:(lia)); lia).
  replace (Z.of_nat j + 1) with (Z.of_nat (S j)) by lia. rewrite Hd'.
  rewrite (unit_served s W N code passes).
  - rewrite list_insert_insert_eq.
    rewrite list_insert_id by (apply owed_in_first_wave; lia).
    simpl count_result.
    rewrite incr_id by (pose proof (int_of_nat (a + j) ltac:(lia)); lia).
    replace (a + S j)%nat with (S (a + j)) by lia.
    rewrite !Nat2Z.inj_succ. unfold Z.succ. reflexivity.
  - apply list_lookup_insert_eq. rewrite length_app, !length_replicate. lia.
  - discriminate.
Qed.

Lemma recycle_run j :
  (j <= b)%nat -> run s W N (recycle code j) (recycled s W n 0) = Some (recycled s W n j).
Proof.
  induction j as [|j IH]; intros Hj; [reflexivity|].
  unfold recycle. rewrite seq_S, map_app, concat_app. simpl.
  rewrite run_app. fold (recycle code j). rewrite IH by lia.
  apply recycle_step. lia.
Qed.

Lemma drain_step m :
  (m < a)%nat ->
  run s W N [DispatcherDone m] (drained W n m) = Some (drained W n (S m)).
Proof.
  intros Hm. pose proof waves as Hw. unfold drained.
  assert (Hd : drain (Z.of_nat (b + m)) N = DDrain (Z.of_nat (b + m))).
  { unfold drain. destruct (Z.ltb_spec (Z.of_nat (b + m)) N); [reflexivity | lia]. }
  rewrite Hd.
  replace (a - m)%nat with (S (a - S m)) by lia. simpl replicate.
  rewrite <- app_comm_cons.
  rewrite done_received by apply lookup_after_replicate.
  rewrite insert_after_replicate, replicate_snoc_app.
  rewrite incr_id by (pose proof (int_of_nat (b + m) ltac:(lia)); lia).
  replace (b + S m)%nat with (S (b + m)) by lia.
  rewrite Nat2Z.inj_succ. unfold Z.succ. reflexivity.
Qed.

Lemma drain_run m :
  (m <= a)%nat -> run s W N (drain_all m) (drained W n 0) = Some (drained W n m).
Proof.
  induction m as [|m IH]; intros Hm; [reflexivity|].
  unfold drain_all. rewrite seq_S, map_app. simpl.
  rewrite run_app. fold (drain_all m). rewrite IH by lia.
  apply drain_step. lia.
Qed.

End Smooth.

(** X13: when the target count is at most twice the pool size, the limiter
    emits permits and the endpoint's answer passes every rule, there is a
    schedule without cancellation on which [ScenarioRun] returns, and the
    summary it returns counts every unit as a success. *)
Theorem target_within_two_pools_completes :
  forall s W n code,
    (n <= 2 * W)%nat ->
    Z.of_nat n < max_int ->
    limiter_emits (Throughput s) = true ->
    any_rule_fails (Validates s) code = false ->
    exists st,
      run s W (Z.of_nat n) (smooth_run code W n) (init W (Z.of_nat n)) = Some st
      /\ returned st = true
      /\ ctx_done st = false
      /\ panicked st = false
      /\ report st = mkReport (Z.of_nat n) 0 0
      /\ enqueued st = n
      /\ completions st = n.
Proof.
  intros s W n code Hpool Hwrap Hemits Hpass.
  pose proof (waves W n Hpool) as Hw.
  assert (Hinit : init W (Z.of_nat n) = filled s W n 0) by reflexivity.
  assert (Hfilled : filled s W n (first_wave W n) = served s W n 0).
  { unfold filled, served. rewrite !Nat.sub_0_r. reflexivity. }
  assert (Hserved : served s W n (first_wave W n) = refilled s W n 0).
  { unfold served, refilled. rewrite Nat.sub_diag, Nat.add_0_r. reflexivity. }
  assert (Hrefilled : refilled s W n (second_wave W n) = recycled s W n 0).
  { unfold refilled, recycled. rewrite Nat.sub_0_r, Nat.add_0_r.
    replace (first_wave W n + second_wave W n)%nat with n by lia. f_equal.
    unfold dispatch.
    destruct (Z.leb_spec (Z.of_nat n + 1) (Z.of_nat n)); [lia | reflexivity]. }
  assert (Hrecycled : recycled s W n (second_wave W n) = drained W n 0).
  { unfold recycled, drained. rewrite Nat.sub_diag, Nat.sub_0_r, Nat.add_0_r.
    replace (first_wave W n + second_wave W n)%nat with n by lia. reflexivity. }
  assert (Hdrained : dispatcher (drained W n (first_wave W n)) = DReturned).
  { unfold drained, drain. simpl.
    replace (second_wave W n + first_wave W n)%nat with n by lia.
    destruct (Z.ltb_spec (Z.of_nat n) (Z.of_nat n)); [lia | reflexivity]. }
  exists (set_returned true (drained W n (first_wave W n))).
  split; [|repeat split; simpl; lia].
  unfold smooth_run. rewrite Hinit.
  rewrite run_app, (fill_run s W n Hpool Hwrap Hemits) by lia. rewrite Hfilled.
  rewrite run_app, (serve_run s W n code Hpool Hwrap Hpass) by lia. rewrite Hserved.
  rewrite run_app, (refill_run s W n Hpool Hwrap Hemits) by lia. rewrite Hrefilled.
  rewrite run_app, (recycle_run s W n code Hpool Hwrap Hpass) by lia.
  rewrite Hrecycled.
  rewrite run_app, (drain_run s W n Hpool Hwrap) by lia.
  simpl run. unfold step. rewrite Hdrained. reflexivity.
Qed.

Lemma target_within_two_pools_completes_witness :
  exists st,
    run (ping None (Some 3) float_one) 2 3 (smooth_run 200 2 3) (init 2 3) = Some st
    /\ returned st = true
    /\ ctx_done st = false
    /\ panicked st = false
    /\ report st = mkReport 3 0 0
    /\ enqueued st = 3%nat
    /\ completions st = 3%nat.
Proof.
  apply (target_within_two_pools_completes (ping None (Some 3) float_one) 2 3 200).
  - lia.
  - unfold max_int. lia.
  - reflexivity.
  - reflexivity.
Defined.

(** ** The report map of [main] *)

Lemma collect_snoc fin p : collect (fin ++ [p]) = store_report (collect fin) p.
Proof. unfold collect. now rewrite foldl_app. Qed.

Lemma collect_lookup fin n :
  collect fin !! n = snd <$> last (filter (named n) fin).
Proof.
  induction fin as [|p fin IH] using rev_ind.
  - reflexivity.
  - rewrite collect_snoc, filter_app. unfold store_report.
    destruct (decide (Name p.1 = n)) as [Heq | Hne].
    + rewrite Heq, lookup_insert_eq.
      rewrite filter_cons_True by exact Heq. rewrite filter_nil.
      now rewrite last_snoc.
    + rewrite lookup_insert_ne by exact Hne.
      rewrite filter_cons_False by exact Hne. rewrite filter_nil.
      now rewrite app_nil_r.
Qed.

Lemma collect_names fin :
  dom (collect fin) = list_to_set (map (fun p => Name p.1) fin).
Proof.
  induction fin as [|p fin IH] using rev_ind.
  - unfold collect. simpl. apply dom_empty_L.
  - rewrite collect_snoc, map_app, list_to_set_app_L. unfold store_report.
    rewrite dom_insert_L, IH. simpl. rewrite (right_id_L ∅ (∪)). apply (comm_L (∪)).
Qed.

Lemma named_once fin n :
  NoDup (map (fun p => Name p.1) fin) -> (length (filter (named n) fin) <= 1)%nat.
Proof.
  induction fin as [|p fin IH]; intros Hnd; simpl; [lia|].
  simpl in Hnd. apply NoDup_cons in Hnd as [Hp Hnd]. specialize (IH Hnd).
  destruct (decide (named n p)) as [Hn | Hn].
  - rewrite filter_cons_True by exact Hn. simpl.
    destruct (filter (named n) fin) as [|q l] eqn:Hf; [simpl; lia|].
    exfalso. apply Hp.
    assert (Hq : q ∈ filter (named n) fin) by (rewrite Hf; left).
    apply list_elem_of_filter in Hq as [Hqn Hqin].
    unfold named in Hn, Hqn. rewrite Hn, <- Hqn.
    apply list_elem_of_In, in_map_iff. exists q. split; [reflexivity|].
    now apply list_elem_of_In.
  - now rewrite filter_cons_False by exact Hn.
Qed.

Lemma short_perm_eq {A} (l l' : list A) :
  (length l <= 1)%nat -> l ≡ₚ l' -> l = l'.
Proof.
  intros Hlen Hp. pose proof (Permutation_length Hp) as Hl.
  destruct l as [|x [|y l]]; simpl in *; try lia.
  - destruct l'; [reflexivity | discriminate].
  - now apply Permutation_singleton_l in Hp.
Qed.

Lemma collect_own fin s r :
  NoDup (map (fun p => Name p.1) fin) ->
  (s, r) ∈ fin -> collect fin !! Name s = Some r.
Proof.
  intros Hnd Hin. rewrite collect_lookup.
  assert (Hf : (s, r) ∈ filter (named (Name s)) fin).
  { apply list_elem_of_filter. split; [reflexivity | assumption]. }
  pose proof (named_once fin (Name s) Hnd) as Hlen.
  destruct (filter (named (Name s)) fin) as [|q [|q' l]]; simpl in *; try lia.
  - inversion Hf.
  - apply list_elem_of_singleton in Hf as <-. reflexivity.
Qed.

Lemma remove_dups_length {A} `{EqDecision A} (l : list A) :
  (length (remove_dups l) <= length l)%nat
  /\ (length (remove_dups l) = length l -> NoDup l).
Proof.
  induction l as [|x l [IHle IHeq]]; simpl.
  - split; [lia | intros _; constructor].
  - destruct (decide_rel elem_of x l) as [Hin | Hnin]; simpl.
    + split; [lia | intros; lia].
    + split; [lia | intros Hlen; constructor; [exact Hnin | apply IHeq; lia]].
Qed.

Lemma collect_size fin :
  size (collect fin) = length (remove_dups (map (fun p => Name p.1) fin)).
Proof.
  rewrite <- size_dom, collect_names.
  rewrite <- (size_list_to_set (C := gset string)) by apply NoDup_remove_dups.
  f_equal. apply set_eq. intros x.
  rewrite !elem_of_list_to_set. symmetry. apply elem_of_remove_dups.
Qed.

(** X14: the report map keeps, under each name, the report of the
    scenario of that name whose goroutine took the mutex last: scenarios
    that share a name overwrite each other. A name is missing from the map
    exactly when no scenario that ran carries it, and the scenario that
    stores last finds its own report. *)
Theorem report_map_keeps_last_of_each_name :
  forall finished n,
    collect finished !! n = snd <$> last (filter (named n) finished)
    /\ (collect finished !! n = None
        <-> forall p, p ∈ finished -> Name p.1 <> n)
    /\ forall s r, collect (finished ++ [(s, r)]) !! Name s = Some r.
Proof.
  intros fin n. split; [apply collect_lookup|]. split.
  - rewrite collect_lookup. split.
    + intros Hnone p Hin Hn.
      assert (Hp : p ∈ filter (named n) fin) by now apply list_elem_of_filter.
      destruct (filter (named n) fin) as [|q l] using rev_ind; [inversion Hp|].
      rewrite last_snoc in Hnone. discriminate.
    + intros Hall.
      destruct (filter (named n) fin) as [|q l] eqn:Hf; [reflexivity|].
      exfalso. assert (Hq : q ∈ filter (named n) fin) by (rewrite Hf; left).
      apply list_elem_of_filter in Hq as [Hqn Hqin]. exact (Hall q Hqin Hqn).
  - intros s r. rewrite collect_snoc. unfold store_report. simpl.
    apply lookup_insert_eq.
Qed.

(** X15: the names printed in the result are exactly the names of the
    scenarios that ran, so the map has at most as many entries as scenarios,
    and fewer as soon as two of them share a name. *)
Theorem report_map_names :
  forall finished,
    dom (collect finished) = list_to_set (map (fun p => Name p.1) finished)
    /\ (size (collect finished) <= length finished)%nat
    /\ (~ NoDup (map (fun p => Name p.1) finished) ->
        (size (collect finished) < length finished)%nat).
Proof.
  intros fin. split; [apply collect_names|]. rewrite collect_size.
  destruct (remove_dups_length (map (fun p => Name p.1) fin)) as [Hle Heq].
  rewrite length_map in Hle, Heq. split; [exact Hle|].
  intros Hdup.
  destruct (decide (length (remove_dups (map (fun p => Name p.1) fin)) = length fin))
    as [He | Hne]; [|lia].
  exfalso. exact (Hdup (Heq He)).
Qed.

(** X16: when the scenarios carry distinct names, every scenario finds its
    own report in the map, and the map does not depend on the order in which
    the goroutines took the mutex. *)
Theorem distinct_names_keep_every_report :
  forall finished finished',
    NoDup (map (fun p => Name p.1) finished) ->
    finished ≡ₚ finished' ->
    collect finished = collect finished'
    /\ forall s r, (s, r) ∈ finished -> collect finished' !! Name s = Some r.
Proof.
  intros fin fin' Hnd Hp.
  assert (Heq : collect fin = collect fin').
  { apply map_eq. intros n. rewrite !collect_lookup.
    f_equal. f_equal. apply short_perm_eq; [now apply named_once|].
    now rewrite Hp. }
  split; [exact Heq|].
  intros s r Hin. rewrite <- Heq. now apply collect_own.
Qed.

Lemma distinct_names_keep_every_report_witness :
  collect [(one_shot, mkReport 1 0 0); (pong, mkReport 0 0 1)]
  = collect [(pong, mkReport 0 0 1); (one_shot, mkReport 1 0 0)]
  /\ forall s r,
       (s, r) ∈ [(one_shot, mkReport 1 0 0); (pong, mkReport 0 0 1)] ->
       collect [(pong, mkReport 0 0 1); (one_shot, mkReport 1 0 0)] !! Name s = Some r.
Proof.
  apply (distinct_names_keep_every_report
           [(one_shot, mkReport 1 0 0); (pong, mkReport 0 0 1)]
           [(pong, mkReport 0 0 1); (one_shot, mkReport 1 0 0)]).
  - apply (bool_decide_unpack _). vm_compute. exact I.
  - apply Permutation_swap.
Defined.

Lemma report_map_names_witness :
  (size (collect [(one_shot, mkReport 1 0 0); (two_shot, mkReport 2 0 0)]) < 2)%nat.
Proof.
  apply (proj2 (proj2 (report_map_names
                         [(one_shot, mkReport 1 0 0); (two_shot, mkReport 2 0 0)]))).
  apply (bool_decide_unpack _). vm_compute. exact I.
Defined.

(** ** The bounds of the pool size *)

Lemma empty_pool_init N : empty_pool N (init 0 N).
Proof.
  unfold empty_pool, init. simpl. repeat split; try discriminate.
  destruct (dispatch_cases N 1 0) as [[H ->] | [(H & H0 & ->) | (H & H0 & ->)]];
    try exact I; lia.
Qed.

Lemma empty_pool_step s N e st st' :
  empty_pool N st -> step s 0 N e st = Some st' -> empty_pool N st'.
Proof.
  intros (Hw & Hq & Hrep & Henq & Hcmp & Hpan & Hlim & Hd & Hret) H.
  unfold empty_pool.
  destruct st as [cd lim d c q ws rep ret pan enq cmp]. simpl in *. subst.
  step_inv H; try discriminate; simpl in *;
    repeat split; auto; try discriminate; try tauto; try congruence.
  - destruct d; tauto.
  - intros Hr. specialize (Hret Hr). discriminate.
Qed.

(** X17: with a pool of no worker ([-c 0]) no unit is ever queued, no result
    is ever counted and nothing panics; [ScenarioRun] returns only after a
    cancellation, or at once when the target count is 0 or less. *)
Theorem empty_pool_sends_nothing :
  forall s N st,
    reachable s 0 N st ->
    enqueued st = 0%nat
    /\ report st = no_report
    /\ panicked st = false
    /\ (returned st = true -> ctx_done st = true \/ N <= 0).
Proof.
  intros s N st [tr Hrun].
  assert (He : empty_pool N st).
  { exact (run_invariant s 0%nat N _ (empty_pool_step s N) tr _ _
             (empty_pool_init N) Hrun). }
  destruct He as (_ & _ & Hrep & Henq & _ & Hpan & _ & Hd & Hret).
  repeat split; auto.
  intros Hr. rewrite (Hret Hr) in Hd. exact Hd.
Qed.

Lemma empty_pool_sends_nothing_witness :
  exists st,
    run one_shot 0 1 [LimiterPermit; DispatcherPermit; LimiterPermit] (init 0 1) = Some st
    /\ returned st = false
    /\ enqueued st = 0%nat
    /\ report st = no_report
    /\ panicked st = false
    /\ (returned st = true -> ctx_done st = true \/ 1 <= 0).
Proof.
  eexists. split; [vm_compute; reflexivity|]. split; [reflexivity|].
  apply (empty_pool_sends_nothing one_shot 1).
  exists [LimiterPermit; DispatcherPermit; LimiterPermit]. vm_compute. reflexivity.
Defined.


